(** * Lebanon Health Infrastructure: the data pipeline of [streamlit_app.py]

    A shallow embedding of the loader, the per-town aggregation and the two
    chart shapes of the dashboard script, with the properties its
    specification states about them.

    Modelling conventions.
    - A cell of a frame read by [pd.read_csv] is a number, a string or the
      missing value ([cell]).  Facility counts are integers, so the numbers
      of the records are [Z].  The numeric parser recognises the whole
      decimal grammar and tells a fractional or infinite value apart
      ([POther]), but the records cannot hold one; float rounding and
      64-bit overflow are outside the model, and a statement that depends
      on them carries the bound under which they do not occur.
    - Python strings are [string]s of bytes; the whitespace class is the
      ASCII part of [str.isspace].
    - The script is a sequence of statements over Python objects.  Frames
      live in a heap of objects ([world]); a Python variable is a Rocq
      variable that holds the address of its frame.  A statement either
      completes, stops the script ([st.stop()]) or raises.
    - The position of the slider and the text of the search box are inputs
      of a run ([controls]); the slider call itself raises when its bounds
      are not in order.
    - Two library behaviours are left abstract: the regular-expression
      engine behind [Series.str.contains], and the order in which the
      default [kind="quicksort"] of [sort_values] leaves rows with equal
      keys, which numpy does not fix.  They are the fields of the class
      [Engine], with the contract every sort satisfies. *)

From Stdlib Require Import ZArith String Ascii Sorted.
From stdpp Require Import base option list sorting strings gmap.

Local Open Scope Z_scope.
Local Open Scope string_scope.
Local Open Scope list_scope.

(** ** Column names (lines 23-42) *)

(** ASCII characters for which [str.isspace] holds; the same class is [\s]
    in a [str] pattern. *)
Definition py_isspace (c : ascii) : bool :=
  let n := nat_of_ascii c in
  ((9 <=? n) && (n <=? 13) || (28 <=? n) && (n <=? 32))%nat.

Fixpoint lstrip (s : string) : string :=
  match s with
  | EmptyString => EmptyString
  | String c s' => if py_isspace c then lstrip s' else s
  end.

Fixpoint rstrip (s : string) : string :=
  match s with
  | EmptyString => EmptyString
  | String c s' =>
      match rstrip s' with
      | EmptyString => if py_isspace c then EmptyString else String c EmptyString
      | r => String c r
      end
  end.

(** [str.strip()] *)
Definition strip (s : string) : string := rstrip (lstrip s).

(** [re.sub(r"\s+", " ", s)]: every maximal run of whitespace becomes one
    space.  [in_run] tells that the previous character was whitespace. *)
Fixpoint collapse_ws (in_run : bool) (s : string) : string :=
  match s with
  | EmptyString => EmptyString
  | String c s' =>
      if py_isspace c
      then (if in_run then collapse_ws true s' else String " " (collapse_ws true s'))
      else String c (collapse_ws false s')
  end.

(** [df.columns.str.strip().str.replace(r"\s+", " ", regex=True)] on one name *)
Definition normalize_name (s : string) : string := collapse_ws false (strip s).

Definition rename_map : list (string * string) :=
  [ ("Existence of nearby care centers - exists", "nearby_exists");
    ("Existence of special needs care centers - does not exist", "snc_no");
    ("Existence of health resources - exists", "health_exists");
    ("Type and size of medical resources - Hospitals", "hospitals");
    ("Existence of a first aid center - exists", "first_aid_exists");
    ("Total number of care centers", "care_cnt");
    ("Type and size of medical resources - Clinics", "clinics");
    ("Existence of special needs care centers - exists", "snc_yes");
    ("Type and size of medical resources - Pharmacies", "pharmacies");
    ("Total number of first aid centers", "first_aid_cnt");
    ("Type and size of medical resources - Labs and Radiology", "labs_radiology");
    ("Percentage of towns with special needs indiciduals - Without special needs", "pct_no_sn");
    ("Percentage of towns with special needs indiciduals - With special needs", "pct_with_sn");
    ("Type and size of medical resources - Medical Centers", "medical_centers") ].

(** Lookup in a Python dict written as an association list. *)
Fixpoint dict_get {V : Type} (d : list (string * V)) (k : string) : option V :=
  match d with
  | [] => None
  | (k', v) :: d' => if decide (k' = k) then Some v else dict_get d' k
  end.

(** [df.rename(columns={k: v for k, v in rename_map.items() if k in df.columns})] *)
Definition rename_columns (cols : list string) : list string :=
  let present := filter (λ kv, kv.1 ∈ cols) rename_map in
  (λ c, default c (dict_get present c)) <$> cols.

Definition need : list string :=
  ["hospitals"; "clinics"; "pharmacies"; "medical_centers"].

(** The condition of line 46. *)
Definition missing_required (cols : list string) : bool :=
  bool_decide ("Town" ∉ cols) || existsb (λ c, bool_decide (c ∉ cols)) need.

(** ** Cells and numeric coercion (lines 49-50) *)

Inductive cell :=
  | CNum (z : Z)
  | CStr (s : string)
  | CNaN.

Global Instance cell_eq_dec : EqDecision cell.
Proof. solve_decision. Defined.

Definition is_digit (c : ascii) : bool :=
  let n := nat_of_ascii c in ((48 <=? n) && (n <=? 57))%nat.

(** The whitespace the numeric parser skips: space, tab, line feed,
    vertical tab, form feed and carriage return. *)
Definition c_isspace (c : ascii) : bool :=
  let n := nat_of_ascii c in ((9 <=? n) && (n <=? 13) || (n =? 32))%nat.

Fixpoint skip_space (s : string) : string :=
  match s with
  | EmptyString => EmptyString
  | String c s' => if c_isspace c then skip_space s' else s
  end.

(** An optional sign: whether it is a minus, and what follows it. *)
Definition take_sign (s : string) : bool * string :=
  match s with
  | String c r =>
      if bool_decide (c = "-"%char) then (true, r)
      else if bool_decide (c = "+"%char) then (false, r)
      else (false, s)
  | EmptyString => (false, s)
  end.

(** The leading decimal digits of [s]: the number they continue from
    [acc], how many they are added to [n], and the rest of the string. *)
Fixpoint scan_digits (acc : Z) (n : nat) (s : string) : Z * nat * string :=
  match s with
  | String c s' =>
      if is_digit c
      then scan_digits (10 * acc + Z.of_nat (nat_of_ascii c - 48)) (S n) s'
      else (acc, n, s)
  | EmptyString => (acc, n, s)
  end.

(** What [pd.to_numeric(_, errors="coerce")] makes of a cell: an integer
    value, a number that is not an integer (fractional or infinite), or
    NaN. *)
Inductive parsed :=
  | PInt (z : Z)
  | POther
  | PNaN.

(** The number [m * 10 ^ e], with its sign. *)
Definition scale (neg : bool) (m e : Z) : parsed :=
  if (0 <=? e)%Z then PInt (if neg then - (m * 10 ^ e) else m * 10 ^ e)
  else if (m mod 10 ^ (- e) =? 0)%Z
       then PInt (if neg then - (m / 10 ^ (- e)) else m / 10 ^ (- e))
       else POther.

(** The digits after the decimal point, if there is one. *)
Definition scan_fraction (m : Z) (s : string) : Z * nat * string :=
  match s with
  | String c r => if bool_decide (c = "."%char) then scan_digits m 0 r else (m, 0%nat, s)
  | EmptyString => (m, 0%nat, s)
  end.

(** The exponent part, if there is one: [e] or [E], an optional sign and
    at least one digit.  Without a digit nothing is consumed. *)
Definition scan_exponent (s : string) : Z * string :=
  match s with
  | String c r =>
      if bool_decide (c = "e"%char) || bool_decide (c = "E"%char)
      then let '(eneg, r1) := take_sign r in
           let '(ev, en, r2) := scan_digits 0 0 r1 in
           if (en =? 0)%nat then (0, s) else (if eneg then - ev else ev, r2)
      else (0, s)
  | EmptyString => (0, s)
  end.

(** A decimal literal without its sign: digits with an optional decimal
    point and an optional exponent, then whitespace only.  There must be a
    digit in the mantissa, and a decimal exponent above 308 is out of
    range. *)
Definition parse_unsigned (neg : bool) (s : string) : option parsed :=
  let '(m1, n1, s2) := scan_digits 0 0 s in
  let '(m2, n2, s3) := scan_fraction m1 s2 in
  if (n1 + n2 =? 0)%nat then None else
  let '(e, s4) := scan_exponent s3 in
  match skip_space s4 with
  | EmptyString =>
      if (308 <? e - Z.of_nat n2)%Z then None
      else Some (scale neg m2 (e - Z.of_nat n2))
  | String _ _ => None
  end.

(** The decimal grammar of the numeric parser: whitespace, an optional
    sign, a decimal literal.  [None]: the text is no such literal. *)
Definition parse_decimal (s : string) : option parsed :=
  let '(neg, s1) := take_sign (skip_space s) in parse_unsigned neg s1.

Definition lower (c : ascii) : ascii :=
  let n := nat_of_ascii c in
  if ((65 <=? n) && (n <=? 90))%nat then ascii_of_nat (n + 32) else c.

Fixpoint lower_string (s : string) : string :=
  match s with
  | EmptyString => EmptyString
  | String c s' => String (lower c) (lower_string s')
  end.

(** The words the parser reads as an infinity, letter case ignored. *)
Definition inf_word (s : string) : bool :=
  bool_decide (lower_string s ∈ ["inf"; "+inf"; "-inf";
                                 "infinity"; "+infinity"; "-infinity"]).

(** [pd.to_numeric(_, errors="coerce")] on one cell.  A number cell keeps
    its number.  A text cell is read by the decimal grammar, then as an
    infinity; any other text ("nan" included) becomes NaN. *)
Definition to_numeric (c : cell) : parsed :=
  match c with
  | CNum z => PInt z
  | CStr s =>
      match parse_decimal s with
      | Some p => p
      | None => if inf_word s then POther else PNaN
      end
  | CNaN => PNaN
  end.

(** [.fillna(0)], into the integer the records hold.  A fractional or
    infinite value has no integer to stand for it: a column that holds one
    is outside the records of this development, and no statement below
    speaks of such a cell. *)
Definition fillna0 (p : parsed) : Z :=
  match p with
  | PInt z => z
  | POther => 0
  | PNaN => 0
  end.

(** [pd.to_numeric(df[c], errors="coerce").fillna(0)] on one cell *)
Definition coerce (c : cell) : Z := fillna0 (to_numeric c).

(** ** Frames and outcomes *)

(** The frame as [pd.read_csv] returns it: a header and rows of cells. *)
Record DataFrame := { columns : list string; data : list (list cell) }.

(** The five columns the script uses after line 50: the town and the four
    coerced resource counts.  The same shape serves for the per-town sums
    and for [top20] and [topN], where [TOTAL] has been dropped. *)
Record Row := {
  Town : cell;
  hospitals : Z;
  clinics : Z;
  pharmacies : Z;
  medical_centers : Z
}.

(** A row of [agg] once line 58 has added the column [TOTAL]. *)
Record AggRow := { sums : Row; TOTAL : Z }.

Global Instance Row_eq_dec : EqDecision Row.
Proof. solve_decision. Defined.
Global Instance AggRow_eq_dec : EqDecision AggRow.
Proof. solve_decision. Defined.

Inductive exn :=
  | TypeError
  | ValueError
  | AttributeError
  | ReError
  | StreamlitAPIException.

(** How a statement ends: normally, by [st.stop()], or by an exception. *)
Inductive result (A : Type) :=
  | Ok (a : A)
  | Stopped
  | Raised (e : exn).
Arguments Ok {A} a.
Arguments Stopped {A}.
Arguments Raised {A} e.

Definition result_bind {A B} (r : result A) (k : A → result B) : result B :=
  match r with
  | Ok a => k a
  | Stopped => Stopped
  | Raised e => Raised e
  end.

(** ** Loader (lines 22-50) *)

Definition column_positions (c : string) (cols : list string) : list nat :=
  (λ ic, ic.1) <$> filter (λ ic, ic.2 = c) (imap (λ i c', (i, c')) cols).

(** [df[c]] is a Series only when exactly one column is named [c]; with a
    repeated name it is a frame, which [pd.to_numeric] rejects with a
    TypeError and [groupby] with a ValueError. *)
Definition series_position (c : string) (cols : list string) (e : exn) : result nat :=
  match column_positions c cols with
  | [i] => Ok i
  | _ => Raised e
  end.

(** A row shorter than the header is padded with missing values. *)
Definition cell_at (i : nat) (row : list cell) : cell := default CNaN (row !! i).

Definition load (df : DataFrame) : result (list Row) :=
  let cols := rename_columns (normalize_name <$> columns df) in
  if missing_required cols then Stopped else
  result_bind (series_position "hospitals" cols TypeError) (λ ih,
  result_bind (series_position "clinics" cols TypeError) (λ ic,
  result_bind (series_position "pharmacies" cols TypeError) (λ ip,
  result_bind (series_position "medical_centers" cols TypeError) (λ im,
  result_bind (series_position "Town" cols ValueError) (λ it,
  Ok ((λ row, {| Town := cell_at it row;
                 hospitals := coerce (cell_at ih row);
                 clinics := coerce (cell_at ic row);
                 pharmacies := coerce (cell_at ip row);
                 medical_centers := coerce (cell_at im row) |}) <$> data df)))))).

(** ** Aggregator (lines 53-58) *)

(** A stable insertion sort: [x] goes before the first [y] with [leb x y]. *)
Fixpoint insert_sorted {A} (leb : A → A → bool) (x : A) (l : list A) : list A :=
  match l with
  | [] => [x]
  | y :: l' => if leb x y then x :: l else y :: insert_sorted leb x l'
  end.

Definition stable_sort {A} (leb : A → A → bool) (l : list A) : list A :=
  foldr (insert_sorted leb) [] l.

(** The order of group keys: numbers, then strings, then the missing key
    (with [dropna=False] the missing key is kept, and sorts last). *)
Definition cell_leb (a b : cell) : bool :=
  match a, b with
  | CNum x, CNum y => (x <=? y)%Z
  | CNum _, _ => true
  | CStr _, CNum _ => false
  | CStr x, CStr y => String.leb x y
  | CStr _, CNaN => true
  | CNaN, CNaN => true
  | CNaN, _ => false
  end.

Definition group_keys (recs : list Row) : list cell :=
  stable_sort cell_leb (remove_dups (Town <$> recs)).

Definition group (k : cell) (recs : list Row) : list Row :=
  filter (λ r, Town r = k) recs.

(** [df.groupby("Town", dropna=False)]: the groups, in key order. *)
Definition groupby_Town (recs : list Row) : list (cell * list Row) :=
  (λ k, (k, group k recs)) <$> group_keys recs.

Definition column_sum (f : Row → Z) (g : list Row) : Z := foldr Z.add 0 (f <$> g).

(** [[need].sum(numeric_only=True)] on one group, with the key put back as
    a column by [reset_index()]. *)
Definition sum_group (kg : cell * list Row) : Row :=
  {| Town := kg.1;
     hospitals := column_sum hospitals kg.2;
     clinics := column_sum clinics kg.2;
     pharmacies := column_sum pharmacies kg.2;
     medical_centers := column_sum medical_centers kg.2 |}.

(** The resource columns by name. *)
Definition resource_columns : list (string * (Row → Z)) :=
  [ ("hospitals", hospitals); ("clinics", clinics);
    ("pharmacies", pharmacies); ("medical_centers", medical_centers) ].

Definition field (c : string) (r : Row) : Z :=
  default 0 ((λ f, f r) <$> dict_get resource_columns c).

(** [frame[need].sum(axis=1)] on one row *)
Definition row_total (r : Row) : Z := foldr Z.add 0 ((λ c, field c r) <$> need).

(** [agg["TOTAL"] = agg[need].sum(axis=1)] *)
Definition with_total (r : Row) : AggRow := {| sums := r; TOTAL := row_total r |}.

Definition aggregate (recs : list Row) : list AggRow :=
  with_total <$> (sum_group <$> groupby_Town recs).

(** ** What the script takes from numpy and re *)

Class Engine := {
  (** [re.compile(pat, re.IGNORECASE)], as the predicate
      [search(s) is not None] of the compiled pattern; [None] when [re]
      rejects the pattern. *)
  re_compile_ignorecase : string → option (string → bool);
  (** The indexer of [nargsort(keys, kind="quicksort", ascending=False)]:
      positions of [keys], largest key first.  Where equal keys land is
      left to the sort. *)
  nargsort_desc : list Z → list nat;
  nargsort_desc_perm : ∀ ks, nargsort_desc ks ≡ₚ seq 0 (length ks);
  nargsort_desc_sorted : ∀ ks, Sorted Z.ge (omap (λ i, ks !! i) (nargsort_desc ks))
}.

Section Shaper.
Context `{!Engine}.

(** [frame.take(indexer)] *)
Definition take_rows {A} (indexer : list nat) (l : list A) : list A :=
  omap (λ i, l !! i) indexer.

(** [sort_values(key, ascending=False)] with the default [kind] *)
Definition sort_values_desc {A} (key : A → Z) (l : list A) : list A :=
  take_rows (nargsort_desc (key <$> l)) l.

(** [nlargest(n, key)] with the default [keep="first"]: nothing for
    [n <= 0]; when [n] covers the frame, the frame sorted by [sort_values];
    otherwise the first [n] rows of a stable (mergesort) descending sort. *)
Definition nlargest {A} (n : nat) (key : A → Z) (l : list A) : list A :=
  if decide (n = 0)%nat then []
  else if decide (length l ≤ n)%nat then take n (sort_values_desc key l)
  else take n (stable_sort (λ x y, (key y <=? key x)%Z) l).

(** *** The town filter (lines 75-77) *)

Definition is_str (c : cell) : bool :=
  match c with CStr _ => true | _ => false end.

(** The [.str] accessor exists on a column of text, and on the column of a
    frame without rows; read from a CSV file, a column with rows and no
    string in it is numeric, and [.str] raises AttributeError. *)
Definition str_accessor_ok (col : list cell) : bool :=
  match col with
  | [] => true
  | _ => existsb is_str col
  end.

(** One entry of the mask [str.contains(pat, case=False, na=False)]: a cell
    that is not a string counts as missing, and [na=False] makes it False. *)
Definition str_contains (search : string → bool) (c : cell) : bool :=
  match c with
  | CStr s => search s
  | _ => false
  end.

(** The right-hand side of line 77. *)
Definition filter_by_name (pat : string) (t : list AggRow) : result (list AggRow) :=
  if str_accessor_ok (Town ∘ sums <$> t) then
    match re_compile_ignorecase pat with
    | Some search => Ok (filter (λ r, str_contains search (Town (sums r)) = true) t)
    | None => Raised ReError
    end
  else Raised AttributeError.

(** Lines 75-77 on the rows of [agg]: the rows of [agg_filtered]. *)
Definition filter_towns (name_filter : string) (t : list AggRow) : result (list AggRow) :=
  if decide (strip name_filter = "") then Ok t
  else filter_by_name (strip name_filter) t.

(** *** Chart 1 (lines 82-90) *)

Definition pretty : list (string * string) :=
  [ ("hospitals", "Hospitals"); ("clinics", "Clinics");
    ("pharmacies", "Pharmacies"); ("medical_centers", "Medical Centers") ].

(** [agg_filtered.nlargest(n, "TOTAL").drop(columns="TOTAL")] *)
Definition largest_towns (n : nat) (t : list AggRow) : list Row :=
  sums <$> nlargest n TOTAL t.

(** Lines 82-83. *)
Definition top20 (t : list AggRow) : list Row :=
  largest_towns (20 `min` length t) t.

Record LongRow := { long_Town : cell; Resource : cell; count : Z }.

(** The long frame; [town_categories] is the category list of its Town
    column once that column is categorical. *)
Record LongFrame := { long_rows : list LongRow; town_categories : option (list cell) }.

(** [melt(id_vars="Town", value_vars=need, var_name="Resource",
    value_name="count")]: one block of rows per column of [need]. *)
Definition melt (rows : list Row) : list LongRow :=
  c ← need; r ← rows;
  [ {| long_Town := Town r; Resource := CStr c; count := field c r |} ].

(** [Series.map(pretty)] on one value: a value that is no key of the dict
    becomes missing. *)
Definition map_pretty (v : cell) : cell :=
  match v with
  | CStr s => from_option CStr CNaN (dict_get pretty s)
  | _ => CNaN
  end.

(** Line 86. *)
Definition set_Resource (f : LongFrame) : LongFrame :=
  {| long_rows :=
       (λ r, {| long_Town := long_Town r; Resource := map_pretty (Resource r);
                count := count r |}) <$> long_rows f;
     town_categories := town_categories f |}.

(** Line 89. *)
Definition order (top : list Row) : list cell :=
  Town ∘ sums <$> sort_values_desc TOTAL (with_total <$> top).

(** [pd.Categorical(values, categories=cats, ordered=True)]: the categories
    must be non-null and unique; a value outside them becomes missing. *)
Definition Categorical (values cats : list cell) : result (list cell) :=
  if bool_decide (CNaN ∈ cats) then Raised ValueError
  else if bool_decide (NoDup cats)
       then Ok ((λ v, if bool_decide (v ∈ cats) then v else CNaN) <$> values)
       else Raised ValueError.

(** Line 90. *)
Definition set_Town_categorical (cats : list cell) (f : LongFrame) : result LongFrame :=
  result_bind (Categorical (long_Town <$> long_rows f) cats) (λ towns,
  Ok {| long_rows :=
          zip_with (λ t r, {| long_Town := t; Resource := Resource r; count := count r |})
                   towns (long_rows f);
        town_categories := Some cats |}).

(** *** Chart 2 (lines 104-105) *)

Record Matrix := {
  m_index : list cell;
  m_columns : list string;
  m_values : list (list Z)
}.

(** Line 104. *)
Definition topN (n_towns : nat) (t : list AggRow) : list Row :=
  largest_towns (n_towns `min` length t) t.

(** [topN.set_index("Town")[need].rename(columns=pretty)] *)
Definition heatmap_matrix (top : list Row) : Matrix :=
  {| m_index := Town <$> top;
     m_columns := (λ c, default c (dict_get pretty c)) <$> need;
     m_values := (λ r, (λ c, field c r) <$> need) <$> top |}.

End Shaper.

(** ** The script as statements over a heap of frames *)

Definition loc := nat.

Inductive obj :=
  | OWide (rows : list Row)
  | OAgg (rows : list AggRow)
  | OLong (f : LongFrame)
  | OMat (m : Matrix).

(** What the page shows: the error box of line 47 and the two charts. *)
Inductive event :=
  | ShowError (msg : string)
  | PlotBar (f : LongFrame)
  | PlotHeatmap (m : Matrix).

Record world := { heap : gmap loc obj; shown : list event }.

Record M (A : Type) := Action { run : world → result A * world }.
Arguments Action {A} _.
Arguments run {A} _ _.

Global Instance M_ret : MRet M := λ A a, Action (λ w, (Ok a, w)).
Global Instance M_bind : MBind M := λ A B k m,
  Action (λ w,
    match run m w with
    | (Ok a, w') => run (k a) w'
    | (Stopped, w') => (Stopped, w')
    | (Raised e, w') => (Raised e, w')
    end).

Definition lift {A} (r : result A) : M A := Action (λ w, (r, w)).

(** A method that returns a frame returns a new object. *)
Definition new (o : obj) : M loc :=
  Action (λ w,
    let l := fresh (dom (heap w)) in
    (Ok l, {| heap := <[l := o]> (heap w); shown := shown w |})).

(** Reading a variable: the frame at its address, of the kind the
    statement works on. *)
Definition get_agg (l : loc) : M (list AggRow) :=
  Action (λ w,
    match heap w !! l with
    | Some (OAgg t) => (Ok t, w)
    | _ => (Raised AttributeError, w)
    end).

Definition get_wide (l : loc) : M (list Row) :=
  Action (λ w,
    match heap w !! l with
    | Some (OWide t) => (Ok t, w)
    | _ => (Raised AttributeError, w)
    end).

Definition get_long (l : loc) : M LongFrame :=
  Action (λ w,
    match heap w !! l with
    | Some (OLong f) => (Ok f, w)
    | _ => (Raised AttributeError, w)
    end).

Definition get_mat (l : loc) : M Matrix :=
  Action (λ w,
    match heap w !! l with
    | Some (OMat m) => (Ok m, w)
    | _ => (Raised AttributeError, w)
    end).

(** [frame[col] = values]: the object at [l] is changed in place. *)
Definition setitem (l : loc) (f : LongFrame) : M unit :=
  Action (λ w, (Ok (), {| heap := <[l := OLong f]> (heap w); shown := shown w |})).

Definition show (e : event) : M unit :=
  Action (λ w, (Ok (), {| heap := heap w; shown := shown w ++ [e] |})).

(** The sidebar controls (lines 71-72), as inputs of a run: the position
    of the slider and the text of the search box. *)
Record controls := { n_towns : nat; name_filter : string }.

(** [st.slider(_, min_value=lo, max_value=hi, value=_, step=5)]: the call
    raises unless [lo] is below [hi]; otherwise it returns the position of
    the slider. *)
Definition slider (lo hi position : nat) : result nat :=
  if decide (lo < hi)%nat then Ok position else Raised StreamlitAPIException.

Section Script.
Context `{!Engine}.

(** Lines 70-72: the values the two controls return.  The initial position
    [min(30, max_n)] lies between the bounds whenever the slider accepts
    them. *)
Definition sidebar (agg : loc) (ctl : controls) : M controls :=
  a ← get_agg agg;
  let max_n := (60 `min` length a)%nat in
  n ← lift (slider 10 max_n (n_towns ctl));
  mret {| n_towns := n; name_filter := name_filter ctl |}.

(** Lines 75-77: the address of [agg_filtered]. *)
Definition apply_filter (agg : loc) (ctl : controls) : M loc :=
  a ← get_agg agg;
  agg_filtered ← new (OAgg a);
  if decide (strip (name_filter ctl) = "") then mret agg_filtered
  else t ← get_agg agg_filtered;
       t' ← lift (filter_by_name (strip (name_filter ctl)) t);
       new (OAgg t').

(** Lines 82-99. *)
Definition chart1 (agg_filtered : loc) : M unit :=
  t ← get_agg agg_filtered;
  v_top20 ← new (OWide (top20 t));
  top ← get_wide v_top20;
  long_top20 ← new (OLong {| long_rows := melt top; town_categories := None |});
  f ← get_long long_top20;
  _ ← setitem long_top20 (set_Resource f);
  top ← get_wide v_top20;
  let v_order := order top in
  f ← get_long long_top20;
  f' ← lift (set_Town_categorical v_order f);
  _ ← setitem long_top20 f';
  f ← get_long long_top20;
  show (PlotBar f).

(** Lines 104-117. *)
Definition chart2 (agg_filtered : loc) (ctl : controls) : M unit :=
  t ← get_agg agg_filtered;
  v_topN ← new (OWide (topN (n_towns ctl) t));
  top ← get_wide v_topN;
  mat ← new (OMat (heatmap_matrix top));
  m ← get_mat mat;
  show (PlotHeatmap m).

(** Lines 75-117; [agg] is the address of the aggregate. *)
Definition shape (agg : loc) (ctl : controls) : M unit :=
  agg_filtered ← apply_filter agg ctl;
  _ ← chart1 agg_filtered;
  chart2 agg_filtered ctl.

Definition missing_message : string :=
  "Missing required columns: 'Town' and the resource columns.".

(** The whole script on the frame read from the CSV file. *)
Definition main (df : DataFrame) (ctl : controls) : M unit :=
  match load df with
  | Stopped => _ ← show (ShowError missing_message); lift Stopped
  | Raised e => lift (Raised e)
  | Ok recs =>
      v_df ← new (OWide recs);
      agg ← new (OAgg (aggregate recs));
      ctl' ← sidebar agg ctl;
      shape agg ctl'
  end.

(** What [shape] computes, as functions of the rows of the aggregate:
    the frame handed to the bar chart, and both charts. *)
Definition bar_frame (t : list AggRow) : result LongFrame :=
  set_Town_categorical (order (top20 t))
    (set_Resource {| long_rows := melt (top20 t); town_categories := None |}).

Definition charts (ctl : controls) (a : list AggRow) : result (LongFrame * Matrix) :=
  result_bind (filter_towns (name_filter ctl) a) (λ t,
  result_bind (bar_frame t) (λ f,
  Ok (f, heatmap_matrix (topN (n_towns ctl) t)))).

End Script.

Definition empty_world : world := {| heap := ∅; shown := [] |}.

(** ** An engine for the examples *)

Fixpoint starts_with_ci (p s : string) : bool :=
  match p, s with
  | EmptyString, _ => true
  | String a p', String b s' => bool_decide (lower a = lower b) && starts_with_ci p' s'
  | String _ _, EmptyString => false
  end.

Fixpoint contains_ci (p s : string) : bool :=
  starts_with_ci p s ||
  match s with
  | EmptyString => false
  | String _ s' => contains_ci p s'
  end.

(** Search for a pattern without metacharacters, over ASCII: the pattern
    matches where it occurs as a substring, letter case ignored. *)
Definition literal_search (pat : string) : option (string → bool) :=
  Some (contains_ci pat).

Definition indexed (ks : list Z) : list (nat * Z) := imap (λ i k, (i, k)) ks.

(** A stable descending indexer: equal keys keep their positions' order. *)
Definition stable_nargsort_desc (ks : list Z) : list nat :=
  fst <$> stable_sort (λ x y, (y.2 <=? x.2)%Z) (indexed ks).

(** ** Orders and frames used in the statements *)

(** Descending order on a key. *)
Definition descending {A} (key : A → Z) : relation A := λ a b, key a >= key b.

(** One row of the long frame of line 86. *)
Definition long_row (c : string) (r : Row) : LongRow :=
  {| long_Town := Town r; Resource := map_pretty (CStr c); count := field c r |}.

(** Every object of [w] is still there, unchanged, in [w']. *)
Definition frame (w w' : world) : Prop :=
  ∀ l o, heap w !! l = Some o → heap w' !! l = Some o.

(** ** Sample inputs *)

(** A frame as read from a file with the verbose headers: two records
    for town B, one for A, one without a town, and an unparseable cell. *)
Definition sample_frame : DataFrame :=
  {| columns := ["Town"; " Type and size of  medical resources - Hospitals";
                 "Type and size of medical resources - Clinics";
                 "Type and size of medical resources - Pharmacies";
                 "Type and size of medical resources - Medical Centers "];
     data := [ [CStr "B"; CNum 1; CNum 2; CNum 3; CNum 0];
               [CStr "A"; CNum 0; CStr "n/a"; CNum 1; CNaN];
               [CNaN; CNum 5; CNum 0; CNum 0; CNum 0];
               [CStr "B"; CNum 0; CNum 0; CNum 1; CNum 0] ] |}.

(** The records [sample_frame] loads to. *)
Definition sample_records : list Row :=
  [ {| Town := CStr "B"; hospitals := 1; clinics := 2; pharmacies := 3;
       medical_centers := 0 |};
    {| Town := CStr "A"; hospitals := 0; clinics := 0; pharmacies := 1;
       medical_centers := 0 |};
    {| Town := CNaN; hospitals := 5; clinics := 0; pharmacies := 0;
       medical_centers := 0 |};
    {| Town := CStr "B"; hospitals := 0; clinics := 0; pharmacies := 1;
       medical_centers := 0 |} ].

(** The same file without its Town column. *)
Definition no_town_frame : DataFrame :=
  {| columns := ["hospitals"; "clinics"; "pharmacies"; "medical_centers"];
     data := [ [CNum 1; CNum 2; CNum 3; CNum 0] ] |}.


(** Three towns read in the order C, A, B with totals 5, 1, 7. *)
Definition three_towns : list Row :=
  [ {| Town := CStr "C"; hospitals := 5; clinics := 0; pharmacies := 0;
       medical_centers := 0 |};
    {| Town := CStr "A"; hospitals := 0; clinics := 1; pharmacies := 0;
       medical_centers := 0 |};
    {| Town := CStr "B"; hospitals := 1; clinics := 2; pharmacies := 4;
       medical_centers := 0 |} ].

Definition sample_controls : controls := {| n_towns := 10; name_filter := "" |}.

(** ** Texts and positions used in the statements *)






(** ** The second claim in its original form *)


(** A file of twelve towns, A to L, and one record without a town. *)
Definition twelve_towns_frame : DataFrame :=
  {| columns := ["Town"; "hospitals"; "clinics"; "pharmacies"; "medical_centers"];
     data := ((λ i, [CStr (String (ascii_of_nat (65 + i)) EmptyString);
                     CNum (Z.of_nat i); CNum 1; CNum 0; CNum 0]) <$> seq 0 12)
             ++ [[CNaN; CNum 5; CNum 0; CNum 0; CNum 0]] |}.

(** ** Shapes of strings and tables used in the further properties *)

(** The string starts with whitespace. *)
Definition head_space (s : string) : bool :=
  match s with
  | EmptyString => false
  | String c _ => py_isspace c
  end.

(** The string is not empty and its last character is no whitespace. *)
Fixpoint ends_nonspace (s : string) : bool :=
  match s with
  | EmptyString => false
  | String c s' =>
      match s' with
      | EmptyString => negb (py_isspace c)
      | _ => ends_nonspace s'
      end
  end.

(** Every whitespace character is a space, and no two are adjacent;
    [prev] tells that the character before the string is whitespace. *)
Fixpoint spaces_single (prev : bool) (s : string) : bool :=
  match s with
  | EmptyString => true
  | String c s' =>
      if py_isspace c
      then bool_decide (c = " "%char) && negb prev && spaces_single true s'
      else spaces_single false s'
  end.

(** One column name through [rename_map], whatever the other columns. *)
Definition rename_name (c : string) : string := default c (dict_get rename_map c).

(** How often a name occurs in a header. *)
Definition occurrences (c : string) (cols : list string) : nat :=
  length (filter (λ c', c' = c) cols).

(** The height of the stacked bar of town [k]: the counts of its rows. *)
Definition bar_height (k : cell) (rows : list LongRow) : Z :=
  foldr Z.add 0 (count <$> filter (λ x, long_Town x = k) rows).

(** ** Sorting lemmas *)

Section StableSort.
Context {A : Type} (leb : A → A → bool).

Lemma insert_sorted_Permutation (x : A) (l : list A) :
  insert_sorted leb x l ≡ₚ x :: l.
Proof.
  induction l as [|y l IH]; simpl; [done|].
  destruct (leb x y); [done|].
  rewrite IH. apply Permutation_swap.
Qed.

Lemma stable_sort_Permutation (l : list A) : stable_sort leb l ≡ₚ l.
Proof.
  induction l as [|x l IH]; simpl; [done|].
  by rewrite insert_sorted_Permutation, IH.
Qed.

Lemma length_stable_sort (l : list A) : length (stable_sort leb l) = length l.
Proof. by rewrite stable_sort_Permutation. Qed.

Context (R : relation A).
Hypothesis leb_true : ∀ x y, leb x y = true → R x y.
Hypothesis leb_false : ∀ x y, leb x y = false → R y x.

Lemma insert_sorted_HdRel (a x : A) (l : list A) :
  R a x → HdRel R a l → HdRel R a (insert_sorted leb x l).
Proof.
  intros Hax Hal. destruct l as [|y l]; simpl; [by constructor|].
  destruct (leb x y); constructor; [done|]. by inversion Hal.
Qed.

Lemma insert_sorted_Sorted (x : A) (l : list A) :
  Sorted R l → Sorted R (insert_sorted leb x l).
Proof.
  induction 1 as [|y l Hl IH Hy]; simpl; [by repeat constructor|].
  destruct (leb x y) eqn:Hxy.
  - repeat constructor; auto.
  - constructor; [done|]. apply insert_sorted_HdRel; auto.
Qed.

Lemma stable_sort_Sorted (l : list A) : Sorted R (stable_sort leb l).
Proof.
  induction l as [|x l IH]; simpl; [constructor|].
  by apply insert_sorted_Sorted.
Qed.

End StableSort.

Lemma fst_imap_pair (n : nat) (ks : list Z) :
  (imap (λ i k, ((n + i)%nat, k)) ks).*1 = seq n (length ks).
Proof.
  revert n. induction ks as [|k ks IH]; intros n; simpl; [done|].
  f_equal; [lia|]. rewrite <-(IH (S n)). f_equal.
  apply imap_ext. intros i x _. simpl. f_equal. lia.
Qed.

Lemma fst_indexed (ks : list Z) : (indexed ks).*1 = seq 0 (length ks).
Proof. apply (fst_imap_pair 0). Qed.

Lemma lookup_indexed (ks : list Z) :
  Forall (λ p, ks !! p.1 = Some p.2) (indexed ks).
Proof.
  apply Forall_forall. intros [i k] (j & y & [= -> ->] & Hj)%elem_of_lookup_imap.
  done.
Qed.

Lemma omap_lookup_fst (ks : list Z) (l : list (nat * Z)) :
  Forall (λ p, ks !! p.1 = Some p.2) l → omap (λ i, ks !! i) l.*1 = l.*2.
Proof.
  induction 1 as [|[i k] l Hik _ IH]; csimpl in *; [done|].
  rewrite Hik. csimpl. by f_equal.
Qed.

(** Any indexer that sorts the pairs of position and key by key obeys the
    contract of [nargsort_desc]. *)
Lemma indexer_contract (leb : nat * Z → nat * Z → bool) (ks : list Z) :
  (∀ x y, leb x y = true → x.2 >= y.2) →
  (∀ x y, leb x y = false → y.2 >= x.2) →
  (stable_sort leb (indexed ks)).*1 ≡ₚ seq 0 (length ks) ∧
  Sorted Z.ge (omap (λ i, ks !! i) (stable_sort leb (indexed ks)).*1).
Proof.
  intros Ht Hf. split.
  - by rewrite stable_sort_Permutation, fst_indexed.
  - rewrite omap_lookup_fst.
    + apply (Sorted_fmap _ (λ x y, x.2 >= y.2)); [done|].
      by apply stable_sort_Sorted.
    + rewrite stable_sort_Permutation. apply lookup_indexed.
Qed.

(** The engine used in the examples: literal patterns and a stable sort. *)
Definition stable_engine : Engine.
Proof.
  refine {| re_compile_ignorecase := literal_search;
            nargsort_desc := stable_nargsort_desc |};
    intros ks; apply indexer_contract; intros [] [] ?; simpl in *; lia.
Defined.

(** ** The aggregate *)

Lemma row_total_sum (r : Row) :
  row_total r = hospitals r + clinics r + pharmacies r + medical_centers r.
Proof. unfold row_total, need, field. simpl. lia. Qed.

Lemma group_keys_NoDup (recs : list Row) : NoDup (group_keys recs).
Proof.
  unfold group_keys. rewrite stable_sort_Permutation. apply NoDup_remove_dups.
Qed.

Lemma elem_of_group_keys (recs : list Row) (k : cell) :
  k ∈ group_keys recs ↔ ∃ r, r ∈ recs ∧ Town r = k.
Proof.
  unfold group_keys. rewrite stable_sort_Permutation, elem_of_remove_dups.
  rewrite list_elem_of_fmap. split; intros (r & ? & ?); by exists r.
Qed.

Lemma groupby_Town_keys (recs : list Row) : (groupby_Town recs).*1 = group_keys recs.
Proof.
  unfold groupby_Town. rewrite <-list_fmap_compose.
  induction (group_keys recs); simpl; by f_equal.
Qed.

Lemma aggregate_towns (recs : list Row) :
  Town ∘ sums <$> aggregate recs = group_keys recs.
Proof.
  unfold aggregate, groupby_Town. rewrite <-!list_fmap_compose.
  induction (group_keys recs); simpl; by f_equal.
Qed.

Lemma aggregate_towns_NoDup (recs : list Row) :
  NoDup (Town ∘ sums <$> aggregate recs).
Proof. rewrite aggregate_towns. apply group_keys_NoDup. Qed.

(** The groups of a duplicate-free list of keys that covers every town
    split the records. *)
Lemma groups_split (keys : list cell) (recs : list Row) :
  NoDup keys → (∀ r, r ∈ recs → Town r ∈ keys) →
  mjoin ((λ k, group k recs) <$> keys) ≡ₚ recs.
Proof.
  intros Hnd. revert recs.
  induction Hnd as [|k ks Hk Hks IH]; intros recs Hcov; csimpl.
  - destruct recs as [|r recs]; [done|].
    specialize (Hcov r (list_elem_of_here _ _)). by apply elem_of_nil in Hcov.
  - etrans; [|apply (filter_app_complement (λ r, Town r = k) recs)].
    apply Permutation_app; [done|].
    assert ((λ k', group k' recs) <$> ks
            = (λ k', group k' (filter (λ r, ¬ Town r = k) recs)) <$> ks) as ->.
    { apply Forall_fmap_ext, Forall_forall. intros k' Hk'.
      unfold group. rewrite list_filter_filter.
      apply list_filter_iff. intros r. split; [|tauto].
      intros ->. split; [done|]. by intros ->. }
    apply IH. intros r [Hr Hin]%list_elem_of_filter.
    specialize (Hcov r Hin). apply elem_of_cons in Hcov as [?|?]; done.
Qed.

(** ** Sorting and selection *)

Lemma take_rows_seq_app {A} (l0 l : list A) :
  omap (λ i, (l0 ++ l) !! i) (seq (length l0) (length l)) = l.
Proof.
  revert l0. induction l as [|x l IH]; intros l0; csimpl; [done|].
  rewrite list_lookup_middle by done. csimpl. f_equal.
  specialize (IH (l0 ++ [x])).
  rewrite <-(assoc_L (++)), length_app, Nat.add_1_r in IH. done.
Qed.

Lemma take_rows_Permutation {A} (indexer : list nat) (l : list A) :
  indexer ≡ₚ seq 0 (length l) → take_rows indexer l ≡ₚ l.
Proof.
  intros Hp. unfold take_rows. rewrite Hp.
  pose proof (take_rows_seq_app [] l) as Hl. simpl in Hl. by rewrite Hl.
Qed.

Lemma fmap_take_rows {A B} (f : A → B) (indexer : list nat) (l : list A) :
  f <$> take_rows indexer l = omap (λ i, (f <$> l) !! i) indexer.
Proof.
  unfold take_rows. induction indexer as [|i indexer IH]; csimpl; [done|].
  rewrite list_lookup_fmap. destruct (l !! i); csimpl; by rewrite IH.
Qed.

Lemma Sorted_fmap_inv {A B} (f : A → B) (R : relation B) (l : list A) :
  Sorted R (f <$> l) → Sorted (λ x y, R (f x) (f y)) l.
Proof.
  induction l as [|x l IH]; csimpl; [constructor|].
  intros [Hl Hx]%Sorted_inv. constructor; [auto|].
  destruct l; csimpl in *; constructor. by inversion Hx.
Qed.

Lemma NoDup_fmap_eq {A B} (f : A → B) (l : list A) (x y : A) :
  NoDup (f <$> l) → x ∈ l → y ∈ l → f x = f y → x = y.
Proof.
  induction l as [|a l IH]; csimpl; [by intros _ ?%elem_of_nil|].
  intros [Ha Hl]%NoDup_cons [->|Hx]%elem_of_cons [->|Hy]%elem_of_cons Hxy; auto.
  - destruct Ha. rewrite Hxy. by apply list_elem_of_fmap_2.
  - destruct Ha. rewrite <-Hxy. by apply list_elem_of_fmap_2.
Qed.

Global Instance descending_trans {A} (key : A → Z) : Transitive (descending key).
Proof. unfold descending. intros x y z. lia. Qed.

(** With pairwise distinct keys there is one descending arrangement. *)
Lemma descending_unique {A} (key : A → Z) (l1 l2 : list A) :
  NoDup (key <$> l1) → l1 ≡ₚ l2 →
  Sorted (descending key) l1 → Sorted (descending key) l2 → l1 = l2.
Proof.
  intros Hnd Hp H1 H2. apply (Sorted_unique_strong (descending key)); [|done..].
  unfold descending. intros x1 x2 Hx1 Hx2 ??.
  apply (NoDup_fmap_eq key l1); [done..| |lia]. by rewrite Hp.
Qed.

Lemma stable_sort_descending {A} (key : A → Z) (l : list A) :
  Sorted (descending key) (stable_sort (λ x y, (key y <=? key x)%Z) l).
Proof. apply stable_sort_Sorted; unfold descending; intros x y ?; lia. Qed.

Lemma Sorted_take {A} (R : relation A) (n : nat) (l : list A) :
  Sorted R l → Sorted R (take n l).
Proof.
  intros Hl. revert n. induction Hl as [|x l Hl IH Hx]; intros [|n]; simpl;
    try constructor; [auto|].
  destruct Hx, n; simpl; by constructor.
Qed.

Section Selection.
Context `{!Engine}.

Lemma sort_values_desc_Permutation {A} (key : A → Z) (l : list A) :
  sort_values_desc key l ≡ₚ l.
Proof.
  apply take_rows_Permutation.
  by rewrite nargsort_desc_perm, length_fmap.
Qed.

Lemma sort_values_desc_Sorted {A} (key : A → Z) (l : list A) :
  Sorted (descending key) (sort_values_desc key l).
Proof.
  apply (Sorted_fmap_inv key Z.ge). unfold sort_values_desc.
  rewrite fmap_take_rows. apply nargsort_desc_sorted.
Qed.

(** [nlargest] is a prefix of a descending arrangement of the rows. *)
Lemma nlargest_prefix {A} (n : nat) (key : A → Z) (l : list A) :
  ∃ l', l' ≡ₚ l ∧ Sorted (descending key) l' ∧ nlargest n key l = take n l'.
Proof.
  unfold nlargest. destruct (decide (n = 0)%nat) as [->|].
  { exists (sort_values_desc key l).
    auto using sort_values_desc_Permutation, sort_values_desc_Sorted. }
  case_decide.
  - exists (sort_values_desc key l).
    auto using sort_values_desc_Permutation, sort_values_desc_Sorted.
  - eexists. split_and!; [apply stable_sort_Permutation| |done].
    apply stable_sort_descending.
Qed.

Lemma length_nlargest {A} (n : nat) (key : A → Z) (l : list A) :
  length (nlargest n key l) = (n `min` length l)%nat.
Proof.
  destruct (nlargest_prefix n key l) as (l' & Hp & _ & ->).
  by rewrite length_take, Hp.
Qed.

Lemma nlargest_Sorted {A} (n : nat) (key : A → Z) (l : list A) :
  Sorted (descending key) (nlargest n key l).
Proof.
  destruct (nlargest_prefix n key l) as (l' & _ & Hs & ->). by apply Sorted_take.
Qed.

Lemma nlargest_NoDup {A B} (f : A → B) (n : nat) (key : A → Z) (l : list A) :
  NoDup (f <$> l) → NoDup (f <$> nlargest n key l).
Proof.
  destruct (nlargest_prefix n key l) as (l' & Hp & _ & ->).
  rewrite <-Hp, fmap_take. intros Hnd.
  eapply sublist_NoDup; [done|apply sublist_take].
Qed.

Lemma elem_of_nlargest {A} (n : nat) (key : A → Z) (l : list A) (x : A) :
  x ∈ nlargest n key l → x ∈ l.
Proof.
  destruct (nlargest_prefix n key l) as (l' & Hp & _ & ->).
  rewrite <-Hp. intros Hx. eapply elem_of_sublist; [done|apply sublist_take].
Qed.

Lemma length_largest_towns (n : nat) (t : list AggRow) :
  length (largest_towns n t) = (n `min` length t)%nat.
Proof. unfold largest_towns. by rewrite length_fmap, length_nlargest. Qed.

Lemma nlargest_all {A} (n : nat) (key : A → Z) (l : list A) :
  (length l ≤ n)%nat → nlargest n key l ≡ₚ l.
Proof.
  intros Hn. unfold nlargest. destruct (decide (n = 0)%nat) as [->|].
  { by destruct l; [|simpl in Hn; lia]. }
  rewrite decide_True by done.
  rewrite take_ge by (by rewrite sort_values_desc_Permutation).
  apply sort_values_desc_Permutation.
Qed.

End Selection.

(** ** The town filter *)

Section FilterFacts.
Context `{!Engine}.

Lemma filter_by_name_idem (pat : string) (t t' : list AggRow) :
  filter_by_name pat t = Ok t' → filter_by_name pat t' = Ok t'.
Proof.
  unfold filter_by_name.
  destruct (str_accessor_ok (Town ∘ sums <$> t)); [|done].
  destruct (re_compile_ignorecase pat) as [search|]; [|done].
  intros [= <-].
  set (P := λ r : AggRow, str_contains search (Town (sums r)) = true).
  assert (str_accessor_ok (Town ∘ sums <$> filter P t) = true) as ->.
  { destruct (filter P t) as [|r l] eqn:Hf; [done|].
    assert (r ∈ filter P t) as [Hr _]%list_elem_of_filter by (rewrite Hf; left).
    unfold P, str_contains in Hr. simpl.
    destruct (Town (sums r)); done. }
  f_equal. rewrite list_filter_filter. apply list_filter_iff. tauto.
Qed.

Lemma filter_towns_sublist (f : string) (t t' : list AggRow) :
  filter_towns f t = Ok t' → t' `sublist_of` t.
Proof.
  unfold filter_towns, filter_by_name.
  repeat case_match; intros [= <-]; [done|]. apply sublist_filter.
Qed.

End FilterFacts.

(** ** The bar-chart frame *)

Lemma aggregate_TOTAL (recs : list Row) :
  Forall (λ r, TOTAL r = row_total (sums r)) (aggregate recs).
Proof. unfold aggregate. rewrite Forall_fmap. by apply Forall_forall. Qed.

Lemma Sorted_strengthen {A} (R : relation A) (P : A → Prop) (l : list A) :
  Forall P l → Sorted R l → Sorted (λ x y, R x y ∧ P x ∧ P y) l.
Proof.
  intros HP Hs. induction Hs as [|x l Hl IH Hx]; [constructor|].
  apply Forall_cons in HP as [Hx' HP]. constructor; [auto|].
  destruct Hx; constructor. apply Forall_cons in HP as [? _]. done.
Qed.

Lemma rebuild_long_rows (l : list LongRow) :
  zip_with (λ t r, {| long_Town := t; Resource := Resource r; count := count r |})
           (long_Town <$> l) l = l.
Proof. induction l as [|[] l IH]; csimpl; [done|]. by rewrite IH. Qed.

Lemma melt_towns (top : list Row) (x : LongRow) :
  x ∈ melt top → long_Town x ∈ Town <$> top.
Proof.
  unfold melt. intros (c & (r & Hx & Hr)%list_elem_of_bind & _)%list_elem_of_bind.
  apply list_elem_of_singleton in Hx as ->. simpl. by apply list_elem_of_fmap_2.
Qed.

Lemma set_Resource_towns (f : LongFrame) :
  long_Town <$> long_rows (set_Resource f) = long_Town <$> long_rows f.
Proof. unfold set_Resource. simpl. by rewrite <-list_fmap_compose. Qed.

Lemma fmap_list_bind {A B C} (f : B → C) (g : A → list B) (l : list A) :
  f <$> (l ≫= g) = l ≫= λ x, f <$> g x.
Proof. induction l as [|x l IH]; csimpl; [done|]. by rewrite fmap_app, IH. Qed.

Lemma set_Resource_melt (top : list Row) :
  long_rows (set_Resource {| long_rows := melt top; town_categories := None |})
  = need ≫= λ c, long_row c <$> top.
Proof.
  unfold set_Resource, melt, need. csimpl.
  rewrite !fmap_app, !(right_id_L [] (++)).
  assert (∀ c, (λ r, {| long_Town := long_Town r;
                        Resource := map_pretty (Resource r);
                        count := count r |})
                 <$> (top ≫= λ r, [ {| long_Town := Town r; Resource := CStr c;
                                       count := field c r |} ])
               = long_row c <$> top) as Hblock.
  { intros c. induction top as [|r top IH]; csimpl; [done|]. by rewrite IH. }
  rewrite !Hblock. csimpl. by rewrite (right_id_L [] (++)).
Qed.

Lemma pretty_of_need (c : string) :
  c ∈ need → ∃ d, (c, d) ∈ pretty ∧ map_pretty (CStr c) = CStr d.
Proof.
  unfold need, pretty. intros Hc.
  repeat (apply elem_of_cons in Hc as [->|Hc]);
    [eexists; split; [|reflexivity]; set_solver..|by apply elem_of_nil in Hc].
Qed.

Lemma need_of_pretty (c d : string) :
  (c, d) ∈ pretty → c ∈ need ∧ map_pretty (CStr c) = CStr d.
Proof.
  unfold need, pretty. intros Hc.
  repeat (apply elem_of_cons in Hc as [[= -> ->]|Hc]);
    [split; [set_solver|reflexivity]..|by apply elem_of_nil in Hc].
Qed.

Section BarFrame.
Context `{!Engine}.

(** The rows behind [order]: the selected rows, rearranged by descending
    total. *)
Lemma order_rows (top : list Row) :
  ∃ rows, order top = Town <$> rows ∧ rows ≡ₚ top ∧
          Sorted (descending row_total) rows.
Proof.
  set (sv := sort_values_desc TOTAL (with_total <$> top)).
  assert (sv ≡ₚ with_total <$> top) as Hp by apply sort_values_desc_Permutation.
  assert (Forall (λ x, x = with_total (sums x)) sv) as HF.
  { rewrite Hp, Forall_fmap. by apply Forall_forall. }
  assert (sv = with_total <$> (sums <$> sv)) as Hsv.
  { clear Hp. rewrite <-list_fmap_compose.
    induction HF as [|x l Hx _ IH]; csimpl; [done|]. by rewrite <-Hx, <-IH. }
  exists (sums <$> sv). split_and!.
  - unfold order. fold sv. by rewrite list_fmap_compose.
  - rewrite Hp, <-list_fmap_compose.
    assert (sums ∘ with_total <$> top = top) as ->; [|done].
    clear. induction top as [|x l IH]; csimpl; [done|]. by rewrite IH.
  - apply (Sorted_fmap_inv with_total (descending TOTAL)).
    rewrite <-Hsv. apply sort_values_desc_Sorted.
Qed.

Lemma order_Permutation (top : list Row) : order top ≡ₚ Town <$> top.
Proof. destruct (order_rows top) as (rows & -> & Hp & _). by rewrite Hp. Qed.

Lemma top20_NoDup (t : list AggRow) :
  NoDup (Town ∘ sums <$> t) → NoDup (Town <$> top20 t).
Proof.
  intros Hnd. unfold top20, largest_towns. rewrite <-list_fmap_compose.
  by apply nlargest_NoDup.
Qed.

Lemma top20_Sorted (t : list AggRow) :
  Forall (λ r, TOTAL r = row_total (sums r)) t →
  Sorted (descending row_total) (top20 t).
Proof.
  intros Ht. unfold top20, largest_towns.
  set (P := λ r : AggRow, TOTAL r = row_total (sums r)).
  apply (Sorted_fmap _ (λ x y, descending TOTAL x y ∧ P x ∧ P y)).
  - intros x y (Hxy & Hx & Hy). unfold descending, P in *.
    rewrite <-Hx, <-Hy. exact Hxy.
  - apply Sorted_strengthen; [|apply nlargest_Sorted].
    apply Forall_forall. intros x Hx%elem_of_nlargest.
    by eapply Forall_forall in Ht.
Qed.

(** Line 90 succeeds exactly when no selected town is missing; the rows of
    the frame are then those of line 86. *)
Lemma bar_frame_ok (t : list AggRow) :
  NoDup (Town ∘ sums <$> t) → CNaN ∉ Town <$> top20 t →
  bar_frame t
  = Ok {| long_rows := long_rows (set_Resource {| long_rows := melt (top20 t);
                                                   town_categories := None |});
          town_categories := Some (order (top20 t)) |}.
Proof.
  intros Hnd Hna. unfold bar_frame, set_Town_categorical, Categorical.
  rewrite bool_decide_eq_false_2 by (by rewrite order_Permutation).
  rewrite bool_decide_eq_true_2
    by (rewrite order_Permutation; by apply top20_NoDup).
  cbn [result_bind]. f_equal.
  set (f := set_Resource _).
  assert ((λ v, if bool_decide (v ∈ order (top20 t)) then v else CNaN)
            <$> (long_Town <$> long_rows f) = long_Town <$> long_rows f) as ->.
  { rewrite <-(list_fmap_id (long_Town <$> long_rows f)) at 2.
    apply Forall_fmap_ext, Forall_forall. intros v Hv.
    rewrite bool_decide_eq_true_2; [done|].
    rewrite order_Permutation. unfold f in Hv.
    rewrite set_Resource_towns in Hv. simpl in Hv.
    apply list_elem_of_fmap in Hv as (x & -> & Hx). by apply melt_towns. }
  by rewrite rebuild_long_rows.
Qed.

Lemma bar_frame_missing (t : list AggRow) :
  CNaN ∈ Town <$> top20 t → bar_frame t = Raised ValueError.
Proof.
  intros Hna. unfold bar_frame, set_Town_categorical, Categorical.
  by rewrite bool_decide_eq_true_2 by (by rewrite order_Permutation).
Qed.

Lemma top20_all (t : list AggRow) :
  (length t ≤ 20)%nat → top20 t ≡ₚ sums <$> t.
Proof.
  intros Hlen. unfold top20, largest_towns.
  rewrite nlargest_all; [done|lia].
Qed.

End BarFrame.

(** ** Running the script *)

Lemma run_bind {A B} (m : M A) (k : A → M B) (w : world) :
  run (m ≫= k) w =
  match run m w with
  | (Ok a, w') => run (k a) w'
  | (Stopped, w') => (Stopped, w')
  | (Raised e, w') => (Raised e, w')
  end.
Proof. done. Qed.

Lemma run_new (o : obj) (w : world) :
  ∃ l, heap w !! l = None ∧
       run (new o) w = (Ok l, {| heap := <[l := o]> (heap w); shown := shown w |}).
Proof.
  exists (fresh (dom (heap w))). split; [|done].
  apply not_elem_of_dom, is_fresh.
Qed.

Lemma run_get_agg (l : loc) (t : list AggRow) (w : world) :
  heap w !! l = Some (OAgg t) → run (get_agg l) w = (Ok t, w).
Proof. intros Hl. unfold get_agg. simpl. by rewrite Hl. Qed.

Lemma run_get_wide (l : loc) (t : list Row) (w : world) :
  heap w !! l = Some (OWide t) → run (get_wide l) w = (Ok t, w).
Proof. intros Hl. unfold get_wide. simpl. by rewrite Hl. Qed.

Lemma run_get_long (l : loc) (f : LongFrame) (w : world) :
  heap w !! l = Some (OLong f) → run (get_long l) w = (Ok f, w).
Proof. intros Hl. unfold get_long. simpl. by rewrite Hl. Qed.

Lemma run_get_mat (l : loc) (m : Matrix) (w : world) :
  heap w !! l = Some (OMat m) → run (get_mat l) w = (Ok m, w).
Proof. intros Hl. unfold get_mat. simpl. by rewrite Hl. Qed.

Lemma run_lift {A} (r : result A) (w : world) : run (lift r) w = (r, w).
Proof. done. Qed.

Lemma run_setitem (l : loc) (f : LongFrame) (w : world) :
  run (setitem l f) w
  = (Ok (), {| heap := <[l := OLong f]> (heap w); shown := shown w |}).
Proof. done. Qed.

Lemma run_show (e : event) (w : world) :
  run (show e) w = (Ok (), {| heap := heap w; shown := shown w ++ [e] |}).
Proof. done. Qed.

Global Instance frame_refl : Reflexive frame.
Proof. by intros w l o. Qed.
Global Instance frame_trans : Transitive frame.
Proof. intros w1 w2 w3 H12 H23 l o Hl. auto. Qed.

Lemma frame_insert_fresh (w : world) (h : gmap loc obj) (ev ev' : list event)
    (l : loc) (o : obj) :
  frame w {| heap := h; shown := ev |} → h !! l = None →
  frame w {| heap := <[l := o]> h; shown := ev' |}.
Proof.
  intros Hw Hl l' o' Hl'. apply Hw in Hl'. simpl in *.
  rewrite lookup_insert_ne; [done|congruence].
Qed.

Lemma frame_same_heap (w : world) (ev : list event) :
  frame w {| heap := heap w; shown := ev |}.
Proof. by intros l o. Qed.

Ltac run_new_as l Hl :=
  rewrite run_bind;
  match goal with
  | |- context [run (new ?o) ?w] =>
      let Hrun := fresh "Hrun" in
      destruct (run_new o w) as (l & Hl & Hrun); rewrite Hrun; clear Hrun
  end.

Ltac run_get :=
  rewrite run_bind;
  first [ erewrite run_get_agg by (simpl; simplify_map_eq; done)
        | erewrite run_get_wide by (simpl; simplify_map_eq; done)
        | erewrite run_get_long by (simpl; simplify_map_eq; done)
        | erewrite run_get_mat by (simpl; simplify_map_eq; done) ].

Section ScriptFacts.
Context `{!Engine}.

Lemma apply_filter_run (agg : loc) (a : list AggRow) (ctl : controls) (w : world) :
  heap w !! agg = Some (OAgg a) →
  ∃ r w', run (apply_filter agg ctl) w = (r, w') ∧ frame w w' ∧
          shown w' = shown w ∧
          match filter_towns (name_filter ctl) a with
          | Ok t => ∃ l, r = Ok l ∧ heap w' !! l = Some (OAgg t)
          | Stopped => r = Stopped
          | Raised e => r = Raised e
          end.
Proof.
  intros Hagg. unfold apply_filter, filter_towns.
  run_get. run_new_as l1 Hl1.
  assert (frame w {| heap := <[l1:=OAgg a]> (heap w); shown := shown w |}) as Hf1.
  { apply (frame_insert_fresh w (heap w) (shown w)); [apply frame_same_heap|done]. }
  case_decide.
  - eexists _, _. split; [done|]. split_and!; [done..|].
    exists l1. simpl. by simplify_map_eq.
  - run_get. rewrite run_bind, run_lift.
    destruct (filter_by_name _ a) as [t'| |e].
    + destruct (run_new (OAgg t') {| heap := <[l1:=OAgg a]> (heap w); shown := shown w |})
        as (l2 & Hl2 & ->).
      eexists _, _. split; [done|]. simpl in *. split_and!; [|done|].
      * by eapply frame_insert_fresh.
      * exists l2. by simplify_map_eq.
    + eexists _, _. split; [done|]. by split_and!.
    + eexists _, _. split; [done|]. by split_and!.
Qed.

Lemma chart1_run (agg_filtered : loc) (t : list AggRow) (w : world) :
  heap w !! agg_filtered = Some (OAgg t) →
  ∃ w', run (chart1 agg_filtered) w = (result_bind (bar_frame t) (λ _, Ok ()), w') ∧
        frame w w' ∧
        shown w' = shown w ++ match bar_frame t with
                              | Ok f => [PlotBar f]
                              | _ => []
                              end.
Proof.
  intros Ht. unfold chart1, bar_frame.
  run_get. run_new_as l1 Hl1. run_get. run_new_as l2 Hl2.
  simpl in Hl2. apply lookup_insert_None in Hl2 as [Hl2 Hne].
  assert (∀ h ev, (∀ l o, heap w !! l = Some o → h !! l = Some o) →
                  frame w {| heap := h; shown := ev |}) as Hframe by done.
  run_get. rewrite run_bind, run_setitem.
  run_get. run_get. rewrite run_bind, run_lift.
  destruct (set_Town_categorical _ _) as [f'| |e].
  - rewrite run_bind, run_setitem. run_get. rewrite run_show.
    eexists. split; [done|]. simpl. split; [|done].
    apply Hframe. intros l o Hl. rewrite !lookup_insert_ne by congruence. done.
  - eexists. split; [done|]. simpl. split; [|by rewrite (right_id_L [] (++))].
    apply Hframe. intros l o Hl. rewrite !lookup_insert_ne by congruence. done.
  - eexists. split; [done|]. simpl. split; [|by rewrite (right_id_L [] (++))].
    apply Hframe. intros l o Hl. rewrite !lookup_insert_ne by congruence. done.
Qed.

Lemma chart2_run (agg_filtered : loc) (t : list AggRow) (ctl : controls) (w : world) :
  heap w !! agg_filtered = Some (OAgg t) →
  ∃ w', run (chart2 agg_filtered ctl) w = (Ok (), w') ∧ frame w w' ∧
        shown w' = shown w ++ [PlotHeatmap (heatmap_matrix (topN (n_towns ctl) t))].
Proof.
  intros Ht. unfold chart2.
  run_get. run_new_as l1 Hl1. run_get. run_new_as l2 Hl2.
  simpl in Hl2. apply lookup_insert_None in Hl2 as [Hl2 Hne].
  run_get. rewrite run_show.
  eexists. split; [done|]. simpl. split; [|done].
  intros l o Hl. simpl. rewrite !lookup_insert_ne by congruence. done.
Qed.

(** One run of lines 75-117: the outcome and the charts are those of
    [charts], and no object that existed before is changed. *)
Lemma shape_run (agg : loc) (a : list AggRow) (ctl : controls) (w : world) :
  heap w !! agg = Some (OAgg a) →
  ∃ w', run (shape agg ctl) w = (result_bind (charts ctl a) (λ _, Ok ()), w') ∧
        frame w w' ∧
        shown w' = shown w ++ match charts ctl a with
                              | Ok (f, m) => [PlotBar f; PlotHeatmap m]
                              | _ => []
                              end.
Proof.
  intros Hagg. unfold shape, charts. rewrite run_bind.
  destruct (apply_filter_run agg a ctl w Hagg) as (r & w1 & -> & Hf1 & Hs1 & Hr).
  destruct (filter_towns (name_filter ctl) a) as [t| |e]; cbn [result_bind].
  - destruct Hr as (l & -> & Hl). rewrite run_bind.
    destruct (chart1_run l t w1 Hl) as (w2 & -> & Hf2 & Hs2).
    destruct (bar_frame t) as [f| |e]; cbn [result_bind].
    + destruct (chart2_run l t ctl w2 (Hf2 _ _ Hl)) as (w3 & -> & Hf3 & Hs3).
      eexists. split; [done|]. split; [by repeat (etrans; [eassumption|])|].
      by rewrite Hs3, Hs2, Hs1, <-(assoc_L (++)).
    + eexists. split; [done|]. split; [by etrans|]. by rewrite Hs2, Hs1.
    + eexists. split; [done|]. split; [by etrans|]. by rewrite Hs2, Hs1.
  - subst r. eexists. split; [done|]. by rewrite Hs1, (right_id_L [] (++)).
  - subst r. eexists. split; [done|]. by rewrite Hs1, (right_id_L [] (++)).
Qed.

(** Lines 70-72: the slider rejects its bounds when the aggregate has at
    most ten rows; otherwise the controls return what the user set. *)
Lemma sidebar_run (agg : loc) (a : list AggRow) (ctl : controls) (w : world) :
  heap w !! agg = Some (OAgg a) →
  run (sidebar agg ctl) w
  = (if decide (10 < length a)%nat then Ok ctl else Raised StreamlitAPIException, w).
Proof.
  intros Hagg. unfold sidebar, slider. run_get. rewrite run_bind, run_lift.
  destruct (decide (10 < 60 `min` length a)%nat);
    destruct (decide (10 < length a)%nat); try lia; [|done].
  by destruct ctl.
Qed.

(** The whole script, when the loader completes. *)
Lemma main_run (df : DataFrame) (ctl : controls) (recs : list Row) :
  load df = Ok recs →
  ∃ w', run (main df ctl) empty_world
          = (if decide (10 < length (aggregate recs))%nat
             then result_bind (charts ctl (aggregate recs)) (λ _, Ok ())
             else Raised StreamlitAPIException, w') ∧
        shown w' = if decide (10 < length (aggregate recs))%nat
                   then match charts ctl (aggregate recs) with
                        | Ok (f, m) => [PlotBar f; PlotHeatmap m]
                        | _ => []
                        end
                   else [].
Proof.
  intros Hload. unfold main. rewrite Hload.
  run_new_as l1 Hl1. run_new_as l2 Hl2.
  rewrite run_bind, (sidebar_run l2 (aggregate recs)) by (simpl; by rewrite lookup_insert_eq).
  destruct (decide (10 < length (aggregate recs))%nat); [|by eexists].
  edestruct (shape_run l2 (aggregate recs) ctl) as (w' & Hrun & _ & Hshown);
    [|rewrite Hrun; by exists w'].
  simpl. by rewrite lookup_insert_eq.
Qed.

End ScriptFacts.

(** ** Numeric coercion and column positions *)










(** ** The claims *)

(** C1. For every input table, every row of the per-town aggregate has
    TOTAL = hospitals + clinics + pharmacies + medical_centers, where each
    of the four is the sum of that column over the records of the town:
    TOTAL is computed from the four summed columns. *)
Theorem C1_total_is_sum_of_resources (recs : list Row) :
  Forall (λ r : AggRow,
    TOTAL r = hospitals (sums r) + clinics (sums r)
              + pharmacies (sums r) + medical_centers (sums r) ∧
    hospitals (sums r) = column_sum hospitals (group (Town (sums r)) recs) ∧
    clinics (sums r) = column_sum clinics (group (Town (sums r)) recs) ∧
    pharmacies (sums r) = column_sum pharmacies (group (Town (sums r)) recs) ∧
    medical_centers (sums r)
      = column_sum medical_centers (group (Town (sums r)) recs))
    (aggregate recs).
Proof.
  unfold aggregate, groupby_Town. rewrite !Forall_fmap.
  apply Forall_forall. intros k _. simpl.
  split; [apply row_total_sum|done].
Qed.




(** C3. When, after normalisation and renaming, the Town column or one of
    the four resource columns is absent, the loader stops the script: the
    page shows the missing-columns message, and nothing else is computed
    (no frame is created, no chart is drawn). *)
Theorem C3_missing_columns_halt `{!Engine} (df : DataFrame) (ctl : controls) :
  let cols := rename_columns (normalize_name <$> columns df) in
  "Town" ∉ cols ∨ (∃ c, c ∈ need ∧ c ∉ cols) →
  load df = Stopped ∧
  run (main df ctl) empty_world
  = (Stopped, {| heap := ∅; shown := [ShowError missing_message] |}).
Proof.
  intros cols Hmiss.
  assert (load df = Stopped) as Hload.
  { unfold load. fold cols.
    assert (missing_required cols = true) as ->; [|done].
    unfold missing_required. apply orb_true_iff.
    destruct Hmiss as [HT|(c & Hc & Hnc)].
    - left. by apply bool_decide_eq_true.
    - right. apply existsb_exists. exists c.
      split; [by apply list_elem_of_In|by apply bool_decide_eq_true]. }
  split; [done|]. unfold main. by rewrite Hload.
Qed.

Lemma C3_missing_columns_halt_witness :
  ("Town" ∉ rename_columns (normalize_name <$> columns no_town_frame)) ∧
  run (main (H := stable_engine) no_town_frame sample_controls) empty_world
  = (Stopped, {| heap := ∅; shown := [ShowError missing_message] |}).
Proof.
  assert ("Town" ∉ rename_columns (normalize_name <$> columns no_town_frame)) as Hno.
  { apply (bool_decide_unpack _). vm_compute. exact I. }
  split; [exact Hno|].
  apply (C3_missing_columns_halt (H := stable_engine) no_town_frame sample_controls).
  left. exact Hno.
Defined.

(** C4. Grouping by Town splits the records: the group sizes add up to
    the number of records, the groups together hold exactly the records,
    every town value of the input is the key of exactly one group and of
    exactly one aggregate row, and each record sits in the group of its
    own town, the missing town and the empty town included. *)
Theorem C4_grouping_is_partition (recs : list Row) :
  let groups := groupby_Town recs in
  sum_list (length ∘ snd <$> groups) = length recs ∧
  mjoin (groups.*2) ≡ₚ recs ∧
  NoDup (groups.*1) ∧
  Town ∘ sums <$> aggregate recs = groups.*1 ∧
  (∀ k, k ∈ groups.*1 ↔ ∃ r, r ∈ recs ∧ Town r = k) ∧
  (∀ k g, (k, g) ∈ groups → g = filter (λ r, Town r = k) recs) ∧
  (∀ r, r ∈ recs → ∃ g, (Town r, g) ∈ groups ∧ r ∈ g).
Proof.
  intros groups.
  assert (groups.*2 = (λ k, group k recs) <$> group_keys recs) as Hsnd.
  { unfold groups, groupby_Town. by rewrite <-list_fmap_compose. }
  assert (mjoin (groups.*2) ≡ₚ recs) as Hsplit.
  { rewrite Hsnd. apply groups_split; [apply group_keys_NoDup|].
    intros r Hr. apply elem_of_group_keys. eauto. }
  split_and!.
  - rewrite <-Hsplit, length_join, list_fmap_compose. done.
  - done.
  - unfold groups. rewrite groupby_Town_keys. apply group_keys_NoDup.
  - unfold groups. by rewrite groupby_Town_keys, aggregate_towns.
  - intros k. unfold groups. rewrite groupby_Town_keys. apply elem_of_group_keys.
  - intros k g (k' & [= -> ->] & _)%list_elem_of_fmap. done.
  - intros r Hr. exists (group (Town r) recs). split.
    + apply list_elem_of_fmap. exists (Town r). split; [done|].
      apply elem_of_group_keys. eauto.
    + by apply list_elem_of_filter.
Qed.

(** C5. The bar chart keeps min(20, available) towns and the heatmap
    min(M, available) towns, M being the slider value, whatever the
    filtered table; the heatmap matrix has that many rows.  When the filter
    leaves no town, the run completes and draws a bar chart without rows and
    a heatmap matrix with zero rows. *)
Theorem C5_selection_size `{!Engine} (t : list AggRow) (ctl : controls) :
  length (top20 t) = (20 `min` length t)%nat ∧
  length (topN (n_towns ctl) t) = (n_towns ctl `min` length t)%nat ∧
  length (m_index (heatmap_matrix (topN (n_towns ctl) t)))
    = (n_towns ctl `min` length t)%nat ∧
  length (m_values (heatmap_matrix (topN (n_towns ctl) t)))
    = (n_towns ctl `min` length t)%nat ∧
  (∀ a agg w,
     heap w !! agg = Some (OAgg a) → filter_towns (name_filter ctl) a = Ok [] →
     ∃ w', run (shape agg ctl) w = (Ok (), w') ∧
           shown w' = shown w ++
             [ PlotBar {| long_rows := []; town_categories := Some [] |};
               PlotHeatmap {| m_index := [];
                              m_columns := ["Hospitals"; "Clinics"; "Pharmacies";
                                            "Medical Centers"];
                              m_values := [] |} ]).
Proof.
  split_and!.
  - unfold top20. rewrite length_largest_towns. lia.
  - unfold topN. rewrite length_largest_towns. lia.
  - simpl. unfold topN. rewrite length_fmap, length_largest_towns. lia.
  - simpl. unfold topN. rewrite length_fmap, length_largest_towns. lia.
  - intros a agg w Hagg Hnone.
    destruct (shape_run agg a ctl w Hagg) as (w' & Hrun & _ & Hshown).
    assert (charts ctl a
            = Ok ({| long_rows := []; town_categories := Some [] |},
                  {| m_index := [];
                     m_columns := ["Hospitals"; "Clinics"; "Pharmacies";
                                   "Medical Centers"];
                     m_values := [] |})) as Hcharts.
    { unfold charts. rewrite Hnone. cbn [result_bind].
      rewrite bar_frame_ok; [|apply NoDup_nil_2|by apply not_elem_of_nil].
      assert (order (top20 []) = []) as ->.
      { apply Permutation_nil_r. by rewrite order_Permutation. }
      cbn [result_bind]. unfold topN. simpl length. by rewrite Nat.min_0_r. }
    rewrite Hcharts in Hrun, Hshown. by exists w'.
Qed.

(** The filter "zzz" matches no town of [three_towns]. *)
Lemma C5_selection_size_witness :
  let w := {| heap := {[ 0%nat := OAgg (aggregate three_towns) ]}; shown := [] |} in
  let ctl := {| n_towns := 10; name_filter := "zzz" |} in
  ∃ w', run (shape (H := stable_engine) 0%nat ctl) w = (Ok (), w') ∧
        shown w' = [ PlotBar {| long_rows := []; town_categories := Some [] |};
                     PlotHeatmap {| m_index := [];
                                    m_columns := ["Hospitals"; "Clinics"; "Pharmacies";
                                                  "Medical Centers"];
                                    m_values := [] |} ].
Proof.
  intros w ctl.
  destruct (C5_selection_size (H := stable_engine) [] ctl) as (_ & _ & _ & _ & Hzero).
  apply (Hzero (aggregate three_towns) 0%nat w); reflexivity.
Defined.

(** C6 fails on a file with a record whose town is missing.  Line 54
    keeps the group of such records ([dropna=False]); with at most twenty
    groups it is among the selected rows, so the missing value is among the
    categories of line 90, which [pd.Categorical] rejects: the run ends with
    ValueError, no categorical ordering is attached and no chart is drawn. *)
Theorem C6_missing_town_raises `{!Engine} :
  ∃ recs w',
    load twelve_towns_frame = Ok recs ∧
    length (aggregate recs) = 13%nat ∧
    CNaN ∈ Town ∘ sums <$> aggregate recs ∧
    bar_frame (aggregate recs) = Raised ValueError ∧
    run (main twelve_towns_frame sample_controls) empty_world = (Raised ValueError, w') ∧
    shown w' = [].
Proof.
  assert (∃ recs, load twelve_towns_frame = Ok recs ∧
                  length (aggregate recs) = 13%nat ∧
                  CNaN ∈ Town ∘ sums <$> aggregate recs) as (recs & Hload & Hlen & Hin).
  { eexists. split; [vm_compute; reflexivity|].
    split; [vm_compute; reflexivity|].
    apply (bool_decide_unpack _). vm_compute. exact I. }
  assert (bar_frame (aggregate recs) = Raised ValueError) as Hbar.
  { apply bar_frame_missing. rewrite top20_all by lia. by rewrite <-list_fmap_compose. }
  destruct (main_run twelve_towns_frame sample_controls recs Hload)
    as (w' & Hrun & Hshown).
  destruct (decide (10 < length (aggregate recs))%nat) as [_|?]; [|lia].
  assert (charts sample_controls (aggregate recs) = Raised ValueError) as Hcharts.
  { unfold charts, filter_towns. rewrite decide_True by done. cbn [result_bind].
    by rewrite Hbar. }
  rewrite Hcharts in Hrun, Hshown. by exists recs, w'.
Qed.

(** C7. For selected rows with pairwise distinct towns, the long frame of
    lines 85-86 has four rows per selected town, one for each pair of a
    town and a resource type and no pair twice; the resource of a row is
    the display name of its column. *)
Theorem C7_long_form_shape (top : list Row) :
  NoDup (Town <$> top) →
  let f := set_Resource {| long_rows := melt top; town_categories := None |} in
  length (long_rows f) = (length top * 4)%nat ∧
  NoDup ((λ x, (long_Town x, Resource x)) <$> long_rows f) ∧
  (∀ x, x ∈ long_rows f ↔
        ∃ r c d, r ∈ top ∧ (c, d) ∈ pretty ∧
                 x = {| long_Town := Town r; Resource := CStr d;
                        count := field c r |}).
Proof.
  intros Hnd f. unfold f. rewrite set_Resource_melt. split_and!.
  - unfold need. csimpl. rewrite !length_app, !length_fmap. simpl. lia.
  - rewrite fmap_list_bind. apply NoDup_bind.
    + intros c1 c2 y Hc1 Hc2
        (x1 & Hy1 & (r1 & -> & _)%list_elem_of_fmap)%list_elem_of_fmap
        (x2 & Hy2 & (r2 & -> & _)%list_elem_of_fmap)%list_elem_of_fmap.
      assert (map_pretty (CStr c1) = map_pretty (CStr c2)) as Hv.
      { rewrite Hy1 in Hy2. exact (f_equal snd Hy2). }
      destruct (pretty_of_need c1 Hc1) as (d1 & Hd1 & Hv1).
      destruct (pretty_of_need c2 Hc2) as (d2 & Hd2 & Hv2).
      rewrite Hv1, Hv2 in Hv. injection Hv as ->.
      revert Hd1 Hd2. unfold pretty. clear.
      intros Hd1 Hd2.
      repeat (apply elem_of_cons in Hd1 as [[= -> ->]|Hd1]);
        try (by apply elem_of_nil in Hd1);
        repeat (apply elem_of_cons in Hd2 as [[= ->]|Hd2]);
        try done; by apply elem_of_nil in Hd2.
    + intros c _. apply (NoDup_fmap_1 fst).
      assert (((λ x, (long_Town x, Resource x)) <$> (long_row c <$> top)).*1
              = Town <$> top) as ->; [|done].
      clear. induction top as [|r top IH]; csimpl; [done|]. by rewrite IH.
    + apply (bool_decide_unpack _). vm_compute. exact I.
  - intros x. rewrite list_elem_of_bind. split.
    + intros (c & (r & -> & Hr)%list_elem_of_fmap & Hc).
      destruct (pretty_of_need c Hc) as (d & Hd & Hv).
      exists r, c, d. split_and!; [done..|]. unfold long_row. by rewrite Hv.
    + intros (r & c & d & Hr & Hd & ->).
      destruct (need_of_pretty c d Hd) as (Hc & Hv).
      exists c. split; [|done]. apply list_elem_of_fmap. exists r.
      split; [|done]. unfold long_row. by rewrite Hv.
Qed.

Lemma C7_long_form_shape_witness :
  NoDup (Town <$> top20 (H := stable_engine) (aggregate three_towns)) ∧
  length (long_rows (set_Resource
            {| long_rows := melt (top20 (H := stable_engine) (aggregate three_towns));
               town_categories := None |})) = 12%nat.
Proof.
  assert (NoDup (Town <$> top20 (H := stable_engine) (aggregate three_towns)))
    as Hnd by (apply (bool_decide_unpack _); vm_compute; exact I).
  split; [exact Hnd|].
  destruct (C7_long_form_shape _ Hnd) as (Hlen & _ & _).
  rewrite Hlen. vm_compute. reflexivity.
Defined.

(** C8. Filtering the result of the filter again with the same text
    gives the same outcome as filtering once, also when the filter raises;
    a filter text that is empty, or empty after stripping, leaves the table
    as it is. *)
Theorem C8_filter_idempotent `{!Engine} (name_filter : string) (t : list AggRow) :
  result_bind (filter_towns name_filter t) (filter_towns name_filter)
  = filter_towns name_filter t ∧
  filter_towns "" t = Ok t ∧
  (strip name_filter = "" → filter_towns name_filter t = Ok t).
Proof.
  split_and!.
  - destruct (filter_towns name_filter t) as [t'| |e] eqn:Hf; [|done..].
    simpl. revert Hf. unfold filter_towns. case_decide; [done|].
    apply filter_by_name_idem.
  - done.
  - intros Hblank. unfold filter_towns. by rewrite decide_True.
Qed.

Lemma C8_filter_idempotent_witness :
  filter_towns (H := stable_engine) "  " (aggregate three_towns)
  = Ok (aggregate three_towns).
Proof.
  destruct (C8_filter_idempotent (H := stable_engine) "  " (aggregate three_towns))
    as (_ & _ & Hblank).
  apply Hblank. reflexivity.
Defined.

(** C9. Running lines 75-117 leaves the aggregate as it was: whether the
    run completes or raises, the object at the address of [agg] is the
    same table afterwards, and so is every other object that existed
    before; the frames the charts are shaped from are new objects. *)
Theorem C9_aggregate_unchanged `{!Engine}
    (agg : loc) (a : list AggRow) (ctl : controls) (w : world) :
  heap w !! agg = Some (OAgg a) →
  heap (run (shape agg ctl) w).2 !! agg = Some (OAgg a) ∧
  (∀ l o, heap w !! l = Some o → heap (run (shape agg ctl) w).2 !! l = Some o).
Proof.
  intros Hagg. destruct (shape_run agg a ctl w Hagg) as (w' & -> & Hframe & _).
  simpl. split; [by apply Hframe|exact Hframe].
Qed.

Lemma C9_aggregate_unchanged_witness :
  let w := {| heap := {[ 0%nat := OAgg (aggregate three_towns) ]}; shown := [] |} in
  heap (run (shape (H := stable_engine) 0%nat sample_controls) w).2 !! 0%nat
  = Some (OAgg (aggregate three_towns)).
Proof.
  intros w.
  refine (proj1 (C9_aggregate_unchanged (H := stable_engine) 0%nat
                   (aggregate three_towns) sample_controls w _)).
  reflexivity.
Defined.

(** C10. With a filter text that is not empty after stripping, no row of
    the filtered table has a missing town: every row kept is a row of the
    table whose town is a string, although the aggregate keeps the records
    without a town as a group of their own. *)
Theorem C10_missing_town_filtered_out `{!Engine}
    (name_filter : string) (t t' : list AggRow) :
  strip name_filter ≠ "" →
  filter_towns name_filter t = Ok t' →
  Forall (λ r, Town (sums r) ≠ CNaN) t' ∧
  (∀ r, r ∈ t' → r ∈ t ∧ ∃ s, Town (sums r) = CStr s).
Proof.
  intros Hpat. unfold filter_towns, filter_by_name.
  rewrite decide_False by done.
  destruct (str_accessor_ok _); [|done].
  destruct (re_compile_ignorecase _) as [search|]; [|done].
  intros [= <-].
  assert (∀ r, r ∈ filter (λ r, str_contains search (Town (sums r)) = true) t →
               r ∈ t ∧ ∃ s, Town (sums r) = CStr s) as Hkept.
  { intros r [Hr Hin]%list_elem_of_filter. split; [done|].
    unfold str_contains in Hr. destruct (Town (sums r)); [done| |done]. eauto. }
  split; [|done]. apply Forall_forall. intros r Hr.
  destruct (Hkept r Hr) as (_ & s & ->). done.
Qed.

(** The aggregate of [sample_frame] has a row for the missing town; the
    filter "b" keeps town B only. *)
Lemma C10_missing_town_filtered_out_witness :
  load sample_frame = Ok sample_records ∧
  CNaN ∈ Town ∘ sums <$> aggregate sample_records ∧
  ∃ t', filter_towns (H := stable_engine) "b" (aggregate sample_records) = Ok t' ∧
        Town ∘ sums <$> t' = [CStr "B"] ∧
        Forall (λ r, Town (sums r) ≠ CNaN) t'.
Proof.
  split; [vm_compute; reflexivity|].
  split; [apply (bool_decide_unpack _); vm_compute; exact I|].
  assert (∃ t', filter_towns (H := stable_engine) "b" (aggregate sample_records) = Ok t'
                ∧ Town ∘ sums <$> t' = [CStr "B"]) as (t' & Hf & Ht').
  { eexists. split; vm_compute; reflexivity. }
  exists t'. split; [exact Hf|]. split; [exact Ht'|].
  refine (proj1 (C10_missing_town_filtered_out (H := stable_engine) "b" _ t' _ Hf)).
  apply (bool_decide_unpack _). vm_compute. exact I.
Defined.

(** ** Further properties of the script *)

(** *** Column names (lines 23 and 42) *)

Lemma lstrip_head (s : string) : head_space s = false → lstrip s = s.
Proof. destruct s as [|c s]; simpl; [done|]. by intros ->. Qed.

Lemma head_space_lstrip (s : string) : head_space (lstrip s) = false.
Proof.
  induction s as [|c s IH]; simpl; [done|].
  destruct (py_isspace c) eqn:Hc; [done|]. simpl. by rewrite Hc.
Qed.

Lemma head_space_rstrip (s : string) :
  head_space s = false → head_space (rstrip s) = false.
Proof.
  destruct s as [|c s]; simpl; [done|]. intros Hc.
  destruct (rstrip s); simpl; by rewrite ?Hc.
Qed.

Lemma rstrip_ends (s : string) : rstrip s = EmptyString ∨ ends_nonspace (rstrip s) = true.
Proof.
  induction s as [|c s IH]; simpl; [by left|].
  destruct (rstrip s) as [|d r] eqn:Hr.
  - destruct (py_isspace c) eqn:Hc; [by left|]. right. simpl. by rewrite Hc.
  - right. destruct IH as [?|IH]; [done|]. exact IH.
Qed.

Lemma rstrip_fixed (s : string) : ends_nonspace s = true → rstrip s = s.
Proof.
  induction s as [|c s IH]; simpl; [done|].
  destruct s as [|d s].
  - simpl. by intros ->%negb_true_iff.
  - intros Hs. by rewrite (IH Hs).
Qed.

Lemma strip_shape (s : string) :
  head_space (strip s) = false ∧
  (strip s = EmptyString ∨ ends_nonspace (strip s) = true).
Proof.
  unfold strip. split.
  - apply head_space_rstrip, head_space_lstrip.
  - apply rstrip_ends.
Qed.

Lemma strip_fixed (s : string) :
  head_space s = false → s = EmptyString ∨ ends_nonspace s = true → strip s = s.
Proof.
  intros Hh [->|He]; [done|]. unfold strip.
  rewrite (lstrip_head s Hh). by apply rstrip_fixed.
Qed.

Lemma strip_idempotent (s : string) : strip (strip s) = strip s.
Proof. destruct (strip_shape s). by apply strip_fixed. Qed.

Lemma collapse_ws_idempotent (b : bool) (s : string) :
  collapse_ws b (collapse_ws b s) = collapse_ws b s.
Proof.
  revert b. induction s as [|c s IH]; intros b; simpl; [done|].
  destruct (py_isspace c) eqn:Hc.
  - destruct b; [apply IH|]. simpl. by rewrite IH.
  - simpl. by rewrite Hc, IH.
Qed.

Lemma collapse_ws_single (b : bool) (s : string) :
  spaces_single b (collapse_ws b s) = true.
Proof.
  revert b. induction s as [|c s IH]; intros b; simpl; [done|].
  destruct (py_isspace c) eqn:Hc.
  - destruct b; [apply IH|]. simpl. by rewrite IH.
  - simpl. by rewrite Hc, IH.
Qed.

Lemma collapse_ws_fixed (b : bool) (s : string) :
  spaces_single b s = true → collapse_ws b s = s.
Proof.
  revert b. induction s as [|c s IH]; intros b; simpl; [done|].
  destruct (py_isspace c) eqn:Hc.
  - intros [[Hsp Hb%negb_true_iff]%andb_true_iff Hs]%andb_true_iff.
    apply bool_decide_eq_true in Hsp. subst. by rewrite (IH _ Hs).
  - intros Hs. by rewrite (IH _ Hs).
Qed.

Lemma head_space_collapse_ws (s : string) :
  head_space (collapse_ws false s) = head_space s.
Proof. destruct s as [|c s]; simpl; [done|]. by destruct (py_isspace c) eqn:Hc. Qed.

Lemma ends_nonspace_cons (c : ascii) (s : string) :
  ends_nonspace s = true → ends_nonspace (String c s) = true.
Proof. by destruct s. Qed.

Lemma ends_nonspace_collapse_ws (b : bool) (s : string) :
  ends_nonspace s = true → ends_nonspace (collapse_ws b s) = true.
Proof.
  revert b. induction s as [|c s IH]; intros b; [done|].
  destruct s as [|d s].
  - simpl. intros Hc%negb_true_iff. rewrite Hc. simpl. by rewrite Hc.
  - intros Hs. change (ends_nonspace (String d s) = true) in Hs.
    change (collapse_ws b (String c (String d s)))
      with (if py_isspace c
            then (if b then collapse_ws true (String d s)
                  else String " " (collapse_ws true (String d s)))
            else String c (collapse_ws false (String d s))).
    destruct (py_isspace c), b; auto using ends_nonspace_cons.
Qed.

(** X1. Normalising a column name is idempotent, and a normalised name
    is left as it is by [strip]. *)
Theorem X1_normalize_name_idempotent (s : string) :
  normalize_name (normalize_name s) = normalize_name s ∧
  strip (normalize_name s) = normalize_name s.
Proof.
  unfold normalize_name. destruct (strip_shape s) as [Hh He].
  assert (head_space (collapse_ws false (strip s)) = false) as Hh'
    by (by rewrite head_space_collapse_ws).
  assert (collapse_ws false (strip s) = EmptyString
          ∨ ends_nonspace (collapse_ws false (strip s)) = true) as He'.
  { destruct He as [->|He]; [by left|]. right. by apply ends_nonspace_collapse_ws. }
  assert (strip (collapse_ws false (strip s)) = collapse_ws false (strip s)) as Hs
    by (by apply strip_fixed).
  split; [|done]. by rewrite Hs, collapse_ws_idempotent.
Qed.

(** X2. A name without whitespace at its ends and with single spaces only
    is left as it is by the normalisation. *)
Theorem X2_normalize_name_fixed (s : string) :
  strip s = s → spaces_single false s = true → normalize_name s = s.
Proof.
  intros Hs Hsp. unfold normalize_name. rewrite Hs. by apply collapse_ws_fixed.
Qed.

Lemma X2_normalize_name_fixed_witness :
  normalize_name "Type and size of medical resources - Hospitals"
  = "Type and size of medical resources - Hospitals".
Proof.
  apply X2_normalize_name_fixed; vm_compute; reflexivity.
Defined.

Lemma dict_get_present {V} (d : list (string * V)) (cols : list string) (c : string) :
  c ∈ cols → dict_get (filter (λ kv, kv.1 ∈ cols) d) c = dict_get d c.
Proof.
  intros Hc. induction d as [|[k v] d IH]; [done|].
  rewrite filter_cons. simpl. destruct (decide (k ∈ cols)) as [Hk|Hk]; simpl.
  - by rewrite IH.
  - rewrite IH. destruct (decide (k = c)) as [->|]; done.
Qed.

Lemma rename_columns_pointwise (cols : list string) :
  rename_columns cols = rename_name <$> cols.
Proof.
  unfold rename_columns, rename_name.
  apply Forall_fmap_ext, Forall_forall. intros c Hc.
  by rewrite dict_get_present.
Qed.

(** No short name of [rename_map] is one of its verbose labels. *)
Lemma rename_map_values_fresh (c v : string) :
  dict_get rename_map c = Some v → dict_get rename_map v = None.
Proof.
  unfold rename_map. simpl.
  repeat (case_decide; [intros [= <-]; vm_compute; reflexivity|]). done.
Qed.

Lemma rename_name_idempotent (c : string) :
  rename_name (rename_name c) = rename_name c.
Proof.
  unfold rename_name. destruct (dict_get rename_map c) as [v|] eqn:Hc.
  - change (default c (Some v)) with v.
    by rewrite (rename_map_values_fresh c v Hc).
  - change (default c None) with c. by rewrite Hc.
Qed.

(** X3. Renaming acts on each column name by itself, whatever the other
    columns: a verbose label of [rename_map] becomes its short name and any
    other name passes through unchanged, so the header keeps its length and
    order.  Renaming a renamed header changes nothing. *)
Theorem X3_rename_columns_pointwise (cols : list string) :
  rename_columns cols = rename_name <$> cols ∧
  length (rename_columns cols) = length cols ∧
  rename_columns (rename_columns cols) = rename_columns cols ∧
  (∀ i c, cols !! i = Some c → dict_get rename_map c = None →
          rename_columns cols !! i = Some c) ∧
  (∀ i c v, cols !! i = Some c → dict_get rename_map c = Some v →
            rename_columns cols !! i = Some v).
Proof.
  rewrite !rename_columns_pointwise. split_and!.
  - done.
  - by rewrite length_fmap.
  - rewrite <-list_fmap_compose. apply Forall_fmap_ext, Forall_forall.
    intros c _. apply rename_name_idempotent.
  - intros i c Hi Hc. rewrite list_lookup_fmap, Hi. simpl.
    unfold rename_name. by rewrite Hc.
  - intros i c v Hi Hc. rewrite list_lookup_fmap, Hi. simpl.
    unfold rename_name. by rewrite Hc.
Qed.

(** *** The loader (lines 45-50) *)

Lemma length_column_positions (c : string) (cols : list string) :
  length (column_positions c cols) = occurrences c cols.
Proof.
  unfold column_positions, occurrences. rewrite length_fmap.
  change (λ (i : nat) (c' : string), (i, c'))
    with (λ (i : nat) (c' : string), (id i, c')).
  generalize (@id nat) as g.
  induction cols as [|c' cols IH]; intros g; [done|].
  rewrite imap_cons, !filter_cons. simpl.
  destruct (decide (c' = c)); simpl; by rewrite <-(IH (g ∘ S)).
Qed.

Lemma series_position_once (c : string) (cols : list string) (e : exn) :
  occurrences c cols = 1%nat → ∃ i, series_position c cols e = Ok i.
Proof.
  rewrite <-length_column_positions. unfold series_position.
  destruct (column_positions c cols) as [|i [|j l]]; [done| |done]. eauto.
Qed.

Lemma series_position_other (c : string) (cols : list string) (e : exn) :
  occurrences c cols ≠ 1%nat → series_position c cols e = Raised e.
Proof.
  rewrite <-length_column_positions. unfold series_position.
  by destruct (column_positions c cols) as [|i [|j l]].
Qed.

Lemma occurrences_elem_of (c : string) (cols : list string) :
  c ∈ cols ↔ occurrences c cols ≠ 0%nat.
Proof.
  unfold occurrences. split.
  - intros Hc Hlen. apply nil_length_inv in Hlen.
    assert (c ∈ filter (λ c', c' = c) cols) as Hin by (by apply list_elem_of_filter).
    rewrite Hlen in Hin. by apply elem_of_nil in Hin.
  - destruct (filter (λ c', c' = c) cols) as [|x l] eqn:Hf; [done|]. intros _.
    assert (x ∈ filter (λ c', c' = c) cols) as [-> Hin]%list_elem_of_filter
      by (rewrite Hf; left).
    done.
Qed.

Lemma missing_required_spec (cols : list string) :
  missing_required cols = true ↔ Exists (λ c, c ∉ cols) ("Town" :: need).
Proof.
  unfold missing_required. rewrite Exists_cons, orb_true_iff, bool_decide_eq_true.
  apply or_iff_compat_l. rewrite Exists_exists, existsb_exists.
  split; intros (c & H1 & H2); exists c.
  - by rewrite list_elem_of_In, <-(bool_decide_eq_true (c ∉ cols)).
  - by rewrite <-list_elem_of_In, bool_decide_eq_true.
Qed.

Ltac series_case c cols :=
  let H := fresh "Ho" in
  let i := fresh "i" in
  let Hi := fresh "Hi" in
  destruct (decide (occurrences c cols = 1%nat)) as [H|H];
  [ destruct (series_position_once c cols TypeError H) as [i Hi];
    destruct (series_position_once c cols ValueError H) as [? ?];
    rewrite ?Hi
  | rewrite ?(series_position_other c cols TypeError H),
            ?(series_position_other c cols ValueError H) ];
  cbn [result_bind].

(** The four ways the loader ends. *)
Lemma load_cases (df : DataFrame) :
  let cols := rename_columns (normalize_name <$> columns df) in
  (missing_required cols = true ∧ load df = Stopped) ∨
  (missing_required cols = false ∧
   Exists (λ c, occurrences c cols ≠ 1%nat) need ∧ load df = Raised TypeError) ∨
  (missing_required cols = false ∧
   Forall (λ c, occurrences c cols = 1%nat) need ∧
   occurrences "Town" cols ≠ 1%nat ∧ load df = Raised ValueError) ∨
  (missing_required cols = false ∧
   Forall (λ c, occurrences c cols = 1%nat) ("Town" :: need) ∧
   ∃ recs, load df = Ok recs ∧ length recs = length (data df)).
Proof.
  intros cols. unfold load. fold cols.
  destruct (missing_required cols); [by left|right].
  unfold need.
  series_case "hospitals" cols; [|left; split; [done|]; split; [|done]; by apply Exists_cons_hd].
  series_case "clinics" cols;
    [|left; split; [done|]; split; [|done]; by apply Exists_cons_tl, Exists_cons_hd].
  series_case "pharmacies" cols;
    [|left; split; [done|]; split; [|done];
      by apply Exists_cons_tl, Exists_cons_tl, Exists_cons_hd].
  series_case "medical_centers" cols;
    [|left; split; [done|]; split; [|done];
      by apply Exists_cons_tl, Exists_cons_tl, Exists_cons_tl, Exists_cons_hd].
  right.
  destruct (decide (occurrences "Town" cols = 1%nat)) as [HoT|HoT].
  - right. destruct (series_position_once "Town" cols ValueError HoT) as [it ->].
    cbn [result_bind]. split; [done|]. split; [by repeat constructor|].
    eexists. split; [done|]. by rewrite length_fmap.
  - left. rewrite (series_position_other "Town" cols ValueError HoT).
    cbn [result_bind]. split; [done|]. split; [by repeat constructor|done].
Qed.

Lemma once_present (cols l : list string) :
  Forall (λ c, occurrences c cols = 1%nat) l → Forall (λ c, c ∈ cols) l.
Proof.
  intros Hall. eapply Forall_impl; [exact Hall|].
  intros c Hc. apply occurrences_elem_of. simpl in Hc. lia.
Qed.

Lemma present_not_missing (cols l : list string) :
  Forall (λ c, c ∈ cols) l → Exists (λ c, c ∉ cols) l → False.
Proof.
  rewrite Forall_forall, Exists_exists. intros Hall (c & Hc & Hn). auto.
Qed.

Lemma once_not_repeated (cols l : list string) :
  Forall (λ c, occurrences c cols = 1%nat) l →
  Exists (λ c, occurrences c cols ≠ 1%nat) l → False.
Proof.
  rewrite Forall_forall, Exists_exists. intros Hall (c & Hc & Hn). auto.
Qed.

Lemma not_missing_present (cols : list string) :
  missing_required cols = false → Forall (λ c, c ∈ cols) ("Town" :: need).
Proof.
  intros Hm. apply Forall_forall. intros c Hc.
  destruct (decide (c ∈ cols)) as [|Hn]; [done|].
  assert (missing_required cols = true); [|congruence].
  apply missing_required_spec, Exists_exists. eauto.
Qed.

(** X4. How the loader ends depends on the renamed header alone.  It
    stops when one of the five required names is absent; it completes, with
    one record per row of the file, exactly when each of the five names
    occurs once; with all of them present it raises TypeError when a
    resource name is repeated, and ValueError when only Town is. *)
Theorem X4_loader_outcome (df : DataFrame) :
  let cols := rename_columns (normalize_name <$> columns df) in
  (load df = Stopped ↔ Exists (λ c, c ∉ cols) ("Town" :: need)) ∧
  ((∃ recs, load df = Ok recs) ↔
     Forall (λ c, occurrences c cols = 1%nat) ("Town" :: need)) ∧
  (load df = Raised TypeError ↔
     Forall (λ c, c ∈ cols) ("Town" :: need) ∧
     Exists (λ c, occurrences c cols ≠ 1%nat) need) ∧
  (load df = Raised ValueError ↔
     Forall (λ c, occurrences c cols = 1%nat) need ∧
     (2 ≤ occurrences "Town" cols)%nat) ∧
  (∀ recs, load df = Ok recs → length recs = length (data df)).
Proof.
  intros cols.
  destruct (load_cases df)
    as [(Hm & Hl)|[(Hm & Hex & Hl)|[(Hm & Hall & HT & Hl)|(Hm & Hall & recs & Hl & Hlen)]]];
    fold cols in Hm; rewrite Hl; clear Hl.
  - apply missing_required_spec in Hm.
    split_and!; [done| | | |done].
    + split; [by intros [? ?]|]. intros Hall.
      destruct (present_not_missing cols _ (once_present _ _ Hall) Hm).
    + split; [done|]. intros [Hall _]. destruct (present_not_missing _ _ Hall Hm).
    + split; [done|]. intros [Hall HT].
      destruct (present_not_missing cols ("Town" :: need)); [|done].
      constructor; [apply occurrences_elem_of; lia|by apply once_present].
  - pose proof (not_missing_present cols Hm) as Hpres.
    split_and!; [| | | |done].
    + split; [done|]. intros Hmiss. destruct (present_not_missing _ _ Hpres Hmiss).
    + split; [by intros [? ?]|]. intros [_ Hall]%Forall_cons.
      destruct (once_not_repeated _ _ Hall Hex).
    + done.
    + split; [done|]. intros [Hall _]. destruct (once_not_repeated _ _ Hall Hex).
  - pose proof (not_missing_present cols Hm) as Hpres.
    fold cols in Hall, HT.
    split_and!; [| | | |done].
    + split; [done|]. intros Hmiss. destruct (present_not_missing _ _ Hpres Hmiss).
    + split; [by intros [? ?]|]. by intros [? _]%Forall_cons.
    + split; [done|]. intros [_ Hex]. destruct (once_not_repeated _ _ Hall Hex).
    + split; [|done]. intros _. split; [done|].
      apply Forall_cons in Hpres as [HTin%occurrences_elem_of _]. lia.
  - pose proof (not_missing_present cols Hm) as Hpres.
    fold cols in Hall.
    split_and!.
    + split; [done|]. intros Hmiss. destruct (present_not_missing _ _ Hpres Hmiss).
    + split; [done|by eexists].
    + split; [done|]. intros [_ Hex].
      apply Forall_cons in Hall as [_ Hall]. destruct (once_not_repeated _ _ Hall Hex).
    + split; [done|]. intros [_ HT]. apply Forall_cons in Hall as [? _]. lia.
    + by intros ? [= <-].
Qed.

(** *** The aggregate (lines 53-58) *)

Lemma column_sum_app (f : Row → Z) (l1 l2 : list Row) :
  column_sum f (l1 ++ l2) = column_sum f l1 + column_sum f l2.
Proof.
  unfold column_sum. induction l1 as [|x l1 IH]; csimpl; [done|]. rewrite IH. lia.
Qed.

Global Instance column_sum_Permutation (f : Row → Z) :
  Proper ((≡ₚ) ==> (=)) (column_sum f).
Proof.
  unfold column_sum. induction 1; csimpl; lia.
Qed.

Lemma column_sum_join (f : Row → Z) (ls : list (list Row)) :
  column_sum f (mjoin ls) = foldr Z.add 0 (column_sum f <$> ls).
Proof.
  induction ls as [|l ls IH]; csimpl; [done|]. by rewrite column_sum_app, IH.
Qed.

Lemma column_sum_plus (f g : Row → Z) (l : list Row) :
  column_sum (λ r, f r + g r) l = column_sum f l + column_sum g l.
Proof.
  unfold column_sum. induction l as [|x l IH]; csimpl; [done|]. rewrite IH. lia.
Qed.

Lemma column_sum_row_total (l : list Row) :
  column_sum row_total l
  = column_sum hospitals l + column_sum clinics l
    + column_sum pharmacies l + column_sum medical_centers l.
Proof.
  rewrite <-!column_sum_plus. unfold column_sum. f_equal.
  apply list_fmap_ext. intros _ r _. apply row_total_sum.
Qed.

Lemma groups_column_sum (f : Row → Z) (recs : list Row) :
  foldr Z.add 0 ((λ kg, column_sum f kg.2) <$> groupby_Town recs) = column_sum f recs.
Proof.
  unfold groupby_Town. rewrite <-list_fmap_compose.
  rewrite <-(groups_split (group_keys recs) recs) at 2.
  - by rewrite column_sum_join, <-list_fmap_compose.
  - apply group_keys_NoDup.
  - intros r Hr. apply elem_of_group_keys. eauto.
Qed.

(** X5. Aggregation moves counts between rows and loses none: each
    resource column of the aggregate adds up to the same number as that
    column of the records, and the TOTAL column adds up to the sum of all
    four. *)
Theorem X5_aggregate_conserves_sums (recs : list Row) :
  column_sum hospitals (sums <$> aggregate recs) = column_sum hospitals recs ∧
  column_sum clinics (sums <$> aggregate recs) = column_sum clinics recs ∧
  column_sum pharmacies (sums <$> aggregate recs) = column_sum pharmacies recs ∧
  column_sum medical_centers (sums <$> aggregate recs)
    = column_sum medical_centers recs ∧
  foldr Z.add 0 (TOTAL <$> aggregate recs)
    = column_sum hospitals recs + column_sum clinics recs
      + column_sum pharmacies recs + column_sum medical_centers recs.
Proof.
  assert (∀ f : Row → Z,
            (∀ kg, f (sum_group kg) = column_sum f kg.2) →
            column_sum f (sums <$> aggregate recs) = column_sum f recs) as Hcol.
  { intros f Hf. rewrite <-(groups_column_sum f recs).
    unfold column_sum at 1, aggregate. rewrite <-!list_fmap_compose.
    f_equal. apply list_fmap_ext. intros _ kg _. apply Hf. }
  split_and!; try (apply Hcol; done).
  rewrite <-column_sum_row_total, <-(groups_column_sum row_total recs).
  unfold aggregate. rewrite <-!list_fmap_compose. f_equal.
  apply list_fmap_ext. intros _ kg _. simpl.
  rewrite row_total_sum, column_sum_row_total. done.
Qed.

Lemma cell_leb_total (a b : cell) : cell_leb a b = false → cell_leb b a = true.
Proof.
  destruct a as [x|x|], b as [y|y|]; simpl; try done.
  - intros ?. apply Z.leb_le. apply Z.leb_gt in H. lia.
  - intros Hxy. destruct (String.leb_total x y) as [?|?]; congruence.
Qed.

Lemma sorted_missing_last (l : list cell) :
  Sorted (λ a b, cell_leb a b = true) l → NoDup l → CNaN ∈ l → last l = Some CNaN.
Proof.
  induction 1 as [|x l Hl IH Hx]; intros Hnd Hin; [by apply elem_of_nil in Hin|].
  apply NoDup_cons in Hnd as [Hxl Hnd].
  destruct l as [|y l]; [by apply list_elem_of_singleton in Hin as ->|].
  apply elem_of_cons in Hin as [<-|Hin].
  - inversion Hx as [|? ? Hxy]; subst. destruct y; simpl in Hxy; try done.
    destruct Hxl. left.
  - change (last (x :: y :: l)) with (last (y :: l)). by apply IH.
Qed.

(** X6. The rows of the aggregate come in the order of their town: towns
    that are strings ascend, and the row of the records without a town, when
    there is one, is the last. *)
Theorem X6_aggregate_in_town_order (recs : list Row) :
  Sorted (λ a b, cell_leb a b = true) (Town ∘ sums <$> aggregate recs) ∧
  (CNaN ∈ Town ∘ sums <$> aggregate recs →
   last (Town ∘ sums <$> aggregate recs) = Some CNaN).
Proof.
  assert (Sorted (λ a b, cell_leb a b = true) (Town ∘ sums <$> aggregate recs)) as Hs.
  { rewrite aggregate_towns. unfold group_keys.
    apply stable_sort_Sorted; [done|apply cell_leb_total]. }
  split; [done|]. apply sorted_missing_last; [done|apply aggregate_towns_NoDup].
Qed.

(** X7. The aggregate has one row per distinct town and never more rows
    than there are records; no group is empty, and the aggregate is empty
    only for a file without rows. *)
Theorem X7_aggregate_size (recs : list Row) :
  length (aggregate recs) = length (remove_dups (Town <$> recs)) ∧
  (length (aggregate recs) ≤ length recs)%nat ∧
  Forall (λ kg, kg.2 ≠ []) (groupby_Town recs) ∧
  (aggregate recs = [] ↔ recs = []).
Proof.
  assert (length (aggregate recs) = length (remove_dups (Town <$> recs))) as Hlen.
  { unfold aggregate, groupby_Town, group_keys.
    by rewrite !length_fmap, length_stable_sort. }
  split_and!.
  - done.
  - rewrite Hlen, <-(length_fmap Town recs).
    apply submseteq_length, NoDup_submseteq; [apply NoDup_remove_dups|].
    intros k. by rewrite elem_of_remove_dups.
  - apply Forall_forall. intros [k g] (k' & [= -> ->] & Hk)%list_elem_of_fmap.
    apply elem_of_group_keys in Hk as (r & Hr & Hk). simpl.
    intros Hnil. assert (r ∈ group k' recs) as Hin by (by apply list_elem_of_filter).
    rewrite Hnil in Hin. by apply elem_of_nil in Hin.
  - split.
    + intros Hnil. destruct recs as [|r recs]; [done|].
      assert (Town r ∈ Town ∘ sums <$> aggregate (r :: recs)) as Hin.
      { rewrite aggregate_towns. apply elem_of_group_keys. exists r. split; [left|done]. }
      rewrite Hnil in Hin. by apply elem_of_nil in Hin.
    + by intros ->.
Qed.

Lemma column_sum_nonneg (f : Row → Z) (l : list Row) :
  Forall (λ r, 0 <= f r) l → 0 <= column_sum f l.
Proof.
  unfold column_sum. induction 1 as [|x l Hx _ IH]; csimpl; lia.
Qed.

Lemma column_sum_group_le (f : Row → Z) (k : cell) (recs : list Row) :
  Forall (λ r, 0 <= f r) recs → column_sum f (group k recs) <= column_sum f recs.
Proof.
  unfold column_sum, group. induction 1 as [|x l Hx _ IH]; [done|].
  rewrite filter_cons. destruct (decide (Town x = k)); csimpl; lia.
Qed.

(** X8. When the counts of every record are non-negative and all the
    counts of the file together stay below 2^53, so that no sum leaves the
    range in which 64-bit integers and floats are exact, the counts of the
    aggregate are non-negative, the TOTAL of a row is at least each of its
    four counts, and it is at most the sum of all the counts of the file. *)
Theorem X8_aggregate_keeps_nonnegative (recs : list Row) :
  Forall (λ r, 0 <= hospitals r ∧ 0 <= clinics r
               ∧ 0 <= pharmacies r ∧ 0 <= medical_centers r) recs →
  column_sum row_total recs < 2 ^ 53 →
  Forall (λ r : AggRow,
            0 <= hospitals (sums r) <= TOTAL r ∧ 0 <= clinics (sums r) <= TOTAL r
            ∧ 0 <= pharmacies (sums r) <= TOTAL r
            ∧ 0 <= medical_centers (sums r) <= TOTAL r
            ∧ TOTAL r <= column_sum row_total recs < 2 ^ 53)
         (aggregate recs).
Proof.
  intros Hrecs Hbound. unfold aggregate, groupby_Town. rewrite !Forall_fmap.
  apply Forall_forall. intros k _. simpl. rewrite row_total_sum. simpl.
  assert (∀ f : Row → Z, Forall (λ r, 0 <= f r) recs →
                         0 <= column_sum f (group k recs) <= column_sum f recs) as Hf.
  { intros f Hall. split; [|by apply column_sum_group_le].
    apply column_sum_nonneg.
    apply Forall_forall. intros r [_ Hr]%list_elem_of_filter.
    by eapply Forall_forall in Hall. }
  assert (0 <= column_sum hospitals (group k recs) <= column_sum hospitals recs) as Hh
    by (apply Hf; eapply Forall_impl; [exact Hrecs|]; simpl; tauto).
  assert (0 <= column_sum clinics (group k recs) <= column_sum clinics recs) as Hc
    by (apply Hf; eapply Forall_impl; [exact Hrecs|]; simpl; tauto).
  assert (0 <= column_sum pharmacies (group k recs) <= column_sum pharmacies recs) as Hp
    by (apply Hf; eapply Forall_impl; [exact Hrecs|]; simpl; tauto).
  assert (0 <= column_sum medical_centers (group k recs)
          <= column_sum medical_centers recs) as Hm
    by (apply Hf; eapply Forall_impl; [exact Hrecs|]; simpl; tauto).
  rewrite column_sum_row_total in Hbound |- *. lia.
Qed.

Lemma X8_aggregate_keeps_nonnegative_witness :
  Forall (λ r : AggRow, 0 <= hospitals (sums r) <= TOTAL r ∧ TOTAL r < 2 ^ 53)
         (aggregate sample_records).
Proof.
  eapply Forall_impl; [apply X8_aggregate_keeps_nonnegative|].
  - repeat constructor; simpl; lia.
  - vm_compute. reflexivity.
  - intros r Hr. simpl in Hr. split; [tauto|]. lia.
Defined.

(** *** Selection of the largest towns (lines 82-83 and 104) *)

Section SelectionProperties.
Context `{!Engine}.

(** X9. The rows kept by [nlargest] are largest: the rows left out,
    together with the rows kept, make up the table, and no row left out has
    a larger key than a row kept. *)
Theorem X9_nlargest_keeps_largest {A} (n : nat) (key : A → Z) (l : list A) :
  ∃ rest, nlargest n key l ++ rest ≡ₚ l ∧
          ∀ x y, x ∈ nlargest n key l → y ∈ rest → key x >= key y.
Proof.
  destruct (nlargest_prefix n key l) as (l' & Hp & Hs & ->).
  exists (drop n l'). split; [rewrite take_drop; exact Hp|].
  intros x y Hx Hy.
  apply (StronglySorted_app_1_elem_of (descending key) (take n l') (drop n l'));
    [|done..].
  rewrite take_drop. apply (Sorted_StronglySorted (descending key)). exact Hs.
Qed.

(** X10. Of two selections from the same table, the one that asks for
    fewer towns is contained in the other: the bar chart's towns are among
    the heatmap's when the slider is at 20 or more, and the other way round
    when it is at 20 or less. *)
Theorem X10_smaller_selection_contained (n m : nat) (t : list AggRow) :
  (n ≤ m)%nat →
  largest_towns (n `min` length t) t ⊆ largest_towns (m `min` length t) t.
Proof.
  intros Hnm. unfold largest_towns.
  intros y (x & -> & Hx)%list_elem_of_fmap. apply list_elem_of_fmap_2.
  destruct (decide (length t ≤ m `min` length t)%nat) as [Hall|Hless].
  { rewrite nlargest_all by done. by apply elem_of_nlargest in Hx. }
  revert Hx. unfold nlargest.
  destruct (decide (n `min` length t = 0)%nat); [by intros ?%elem_of_nil|].
  rewrite (decide_False (P := (m `min` length t = 0)%nat)) by lia.
  rewrite !(decide_False (P := (length t ≤ _)%nat)) by lia.
  intros Hx. eapply elem_of_sublist; [exact Hx|].
  set (l := stable_sort _ t).
  assert (take (n `min` length t) l
          = take (n `min` length t) (take (m `min` length t) l)) as ->.
  { rewrite take_take. f_equal. lia. }
  apply sublist_take.
Qed.

Lemma largest_towns_Sorted (n : nat) (t : list AggRow) :
  Forall (λ r, TOTAL r = row_total (sums r)) t →
  Sorted (descending row_total) (largest_towns n t).
Proof.
  intros Ht. unfold largest_towns.
  set (P := λ r : AggRow, TOTAL r = row_total (sums r)).
  apply (Sorted_fmap _ (λ x y, descending TOTAL x y ∧ P x ∧ P y)).
  - intros x y (Hxy & Hx & Hy). unfold descending, P in *.
    rewrite <-Hx, <-Hy. exact Hxy.
  - apply Sorted_strengthen; [|apply nlargest_Sorted].
    apply Forall_forall. intros x Hx%elem_of_nlargest.
    by eapply Forall_forall in Ht.
Qed.

Lemma filtered_rows (name_filter : string) (recs : list Row) (t : list AggRow) :
  filter_towns name_filter (aggregate recs) = Ok t →
  NoDup (Town ∘ sums <$> t) ∧
  Forall (λ r, TOTAL r = row_total (sums r)) t ∧
  ∀ r, r ∈ t → r ∈ aggregate recs.
Proof.
  intros Hsub%filter_towns_sublist. split_and!.
  - eapply sublist_NoDup; [apply aggregate_towns_NoDup|by apply fmap_sublist].
  - apply Forall_forall. intros r Hr.
    pose proof (aggregate_TOTAL recs) as Hall.
    rewrite Forall_forall in Hall. apply Hall. by eapply elem_of_sublist.
  - intros r Hr. by eapply elem_of_sublist.
Qed.

(** X11. The heatmap matrix has one row of four values per selected
    town, under the four display names; the rows come by non-increasing row
    sum, and each row holds the four sums of a town of the aggregate, its
    row sum being that town's TOTAL. *)
Theorem X11_heatmap_matrix_rows
    (recs : list Row) (name_filter : string) (t : list AggRow) (n : nat) :
  filter_towns name_filter (aggregate recs) = Ok t →
  let m := heatmap_matrix (topN n t) in
  m_columns m = ["Hospitals"; "Clinics"; "Pharmacies"; "Medical Centers"] ∧
  length (m_index m) = length (m_values m) ∧
  Sorted Z.ge (foldr Z.add 0 <$> m_values m) ∧
  (∀ i k row, m_index m !! i = Some k → m_values m !! i = Some row →
     ∃ r, r ∈ aggregate recs ∧ Town (sums r) = k ∧
          row = [hospitals (sums r); clinics (sums r); pharmacies (sums r);
                 medical_centers (sums r)] ∧
          foldr Z.add 0 row = TOTAL r).
Proof.
  intros Hfilter m. destruct (filtered_rows _ _ _ Hfilter) as (Hnd & Htot & Hin).
  split_and!.
  - done.
  - unfold m. simpl. by rewrite !length_fmap.
  - unfold m. simpl. rewrite <-list_fmap_compose.
    apply (Sorted_fmap _ (descending row_total)); [done|].
    by apply largest_towns_Sorted.
  - unfold m, heatmap_matrix. cbn [m_index m_values]. intros i k row Hk Hrow.
    rewrite list_lookup_fmap in Hk. rewrite list_lookup_fmap in Hrow.
    destruct (topN n t !! i) as [x|] eqn:Hx; [|done].
    injection Hk as <-. injection Hrow as <-.
    apply list_elem_of_lookup_2 in Hx.
    unfold topN, largest_towns in Hx.
    apply list_elem_of_fmap in Hx as (r & -> & Hr%elem_of_nlargest).
    exists r. split_and!; [by apply Hin|done|done|].
    rewrite Forall_forall in Htot. rewrite (Htot r Hr). done.
Qed.

End SelectionProperties.

Lemma X10_smaller_selection_contained_witness :
  top20 (H := stable_engine) (aggregate three_towns)
  ⊆ topN (H := stable_engine) 30 (aggregate three_towns).
Proof.
  apply (X10_smaller_selection_contained (H := stable_engine) 20 30). lia.
Defined.

Lemma X11_heatmap_matrix_rows_witness :
  m_values (heatmap_matrix (topN (H := stable_engine) 10 (aggregate three_towns)))
  = [[1; 2; 4; 0]; [5; 0; 0; 0]; [0; 1; 0; 0]] ∧
  Sorted Z.ge (foldr Z.add 0 <$>
    m_values (heatmap_matrix (topN (H := stable_engine) 10 (aggregate three_towns)))).
Proof.
  split; [vm_compute; reflexivity|].
  refine (proj1 (proj2 (proj2
    (X11_heatmap_matrix_rows (H := stable_engine) three_towns ""
       (aggregate three_towns) 10 _)))).
  reflexivity.
Defined.


(** *** The bar chart (lines 85-90) *)

Lemma filter_other_town (c : string) (k : cell) (top : list Row) :
  k ∉ Town <$> top → filter (λ x, long_Town x = k) (long_row c <$> top) = [].
Proof.
  induction top as [|a top IH]; csimpl; [done|].
  intros [Ha Hk]%not_elem_of_cons. rewrite filter_cons.
  rewrite decide_False by (simpl; congruence). by apply IH.
Qed.

Lemma filter_own_town (c : string) (r : Row) (top : list Row) :
  NoDup (Town <$> top) → r ∈ top →
  filter (λ x, long_Town x = Town r) (long_row c <$> top) = [long_row c r].
Proof.
  induction top as [|a top IH]; csimpl; [by intros _ ?%elem_of_nil|].
  intros [Ha Hnd]%NoDup_cons Hr. rewrite filter_cons.
  destruct (decide (Town a = Town r)) as [Heq|Hne].
  - assert (r = a) as ->.
    { apply elem_of_cons in Hr as [?|Hr]; [done|].
      destruct Ha. rewrite Heq. by apply list_elem_of_fmap_2. }
    rewrite decide_True by done. by rewrite filter_other_town.
  - rewrite decide_False by (simpl; congruence).
    apply IH; [done|]. apply elem_of_cons in Hr as [->|?]; done.
Qed.

(** X12. In the long frame of the bar chart, the counts of the rows of
    one town add up to the sum of its four resource counts: the stacked bar
    of a town is as high as its TOTAL. *)
Theorem X12_bar_height_is_total (top : list Row) (r : Row) :
  NoDup (Town <$> top) → r ∈ top →
  bar_height (Town r)
    (long_rows (set_Resource {| long_rows := melt top; town_categories := None |}))
  = row_total r.
Proof.
  intros Hnd Hr. rewrite set_Resource_melt. unfold bar_height, need. csimpl.
  rewrite !filter_app, !filter_own_town by done. done.
Qed.

Lemma X12_bar_height_is_total_witness :
  bar_height (CStr "B")
    (long_rows (set_Resource {| long_rows := melt three_towns;
                                town_categories := None |})) = 7.
Proof.
  assert (NoDup (Town <$> three_towns)) as Hnd
    by (apply (bool_decide_unpack _); vm_compute; exact I).
  assert ({| Town := CStr "B"; hospitals := 1; clinics := 2; pharmacies := 4;
             medical_centers := 0 |} ∈ three_towns) as Hin
    by (apply (bool_decide_unpack _); vm_compute; exact I).
  apply (X12_bar_height_is_total three_towns _ Hnd Hin).
Defined.

Section RunProperties.
Context `{!Engine}.

Lemma bar_frame_outcome (t : list AggRow) :
  NoDup (Town ∘ sums <$> t) →
  (bar_frame t = Raised ValueError ↔ CNaN ∈ Town <$> top20 t) ∧
  ((∃ f, bar_frame t = Ok f) ↔ CNaN ∉ Town <$> top20 t).
Proof.
  intros Hnd. destruct (decide (CNaN ∈ Town <$> top20 t)) as [Hin|Hout].
  - rewrite bar_frame_missing by done. split; [done|].
    split; [by intros [? ?]|done].
  - rewrite bar_frame_ok by done. split; [done|]. split; [done|by eexists].
Qed.

(** X13. Line 90 raises ValueError exactly when the row of the records
    without a town is among the selected rows, and succeeds otherwise.  In
    particular a run without filter text on a file that has a record without
    a town and more than ten but at most twenty towns ends with that error,
    and no chart is drawn. *)
Theorem X13_missing_town_stops_the_run :
  (∀ t, NoDup (Town ∘ sums <$> t) →
        (bar_frame t = Raised ValueError ↔ CNaN ∈ Town <$> top20 t) ∧
        ((∃ f, bar_frame t = Ok f) ↔ CNaN ∉ Town <$> top20 t)) ∧
  (∀ df recs ctl,
     load df = Ok recs → strip (name_filter ctl) = "" →
     (∃ r, r ∈ recs ∧ Town r = CNaN) →
     (10 < length (aggregate recs) ≤ 20)%nat →
     ∃ w', run (main df ctl) empty_world = (Raised ValueError, w') ∧ shown w' = []).
Proof.
  split; [apply bar_frame_outcome|].
  intros df recs ctl Hload Hblank (r & Hr & Hna) Hlen.
  destruct (main_run df ctl recs Hload) as (w' & Hrun & Hshown).
  destruct (decide (10 < length (aggregate recs))%nat) as [_|?]; [|lia].
  assert (charts ctl (aggregate recs) = Raised ValueError) as Hcharts.
  { unfold charts, filter_towns. rewrite decide_True by done. cbn [result_bind].
    rewrite bar_frame_missing; [done|].
    rewrite top20_all by lia. rewrite <-list_fmap_compose, aggregate_towns.
    apply elem_of_group_keys. eauto. }
  rewrite Hcharts in Hrun, Hshown. by exists w'.
Qed.

(** X14. On a file with more than ten towns, a run whose filter text is
    not blank and is accepted (the Town column is text and the pattern
    compiles) completes: no selected town is missing, so line 90 succeeds,
    and both charts are drawn from the filtered table, the bar chart
    first. *)
Theorem X14_filtered_run_completes
    (df : DataFrame) (recs : list Row) (ctl : controls) (t : list AggRow) :
  load df = Ok recs → (10 < length (aggregate recs))%nat →
  strip (name_filter ctl) ≠ "" →
  filter_towns (name_filter ctl) (aggregate recs) = Ok t →
  ∃ w' f, run (main df ctl) empty_world = (Ok (), w') ∧
          shown w' = [PlotBar f; PlotHeatmap (heatmap_matrix (topN (n_towns ctl) t))] ∧
          town_categories f = Some (order (top20 t)) ∧
          long_rows f = long_rows (set_Resource {| long_rows := melt (top20 t);
                                                   town_categories := None |}).
Proof.
  intros Hload Hlen Hpat Hfilter.
  destruct (filtered_rows _ _ _ Hfilter) as (Hnd & _ & _).
  assert (CNaN ∉ Town <$> top20 t) as Hna.
  { intros (x & Hx & Hin)%list_elem_of_fmap.
    unfold top20, largest_towns in Hin.
    apply list_elem_of_fmap in Hin as (r & -> & Hr%elem_of_nlargest).
    revert Hfilter Hr. unfold filter_towns, filter_by_name.
    rewrite decide_False by done.
    destruct (str_accessor_ok _); [|done].
    destruct (re_compile_ignorecase _) as [search|]; [|done].
    intros [= <-] [Hm _]%list_elem_of_filter.
    rewrite <-Hx in Hm. done. }
  destruct (main_run df ctl recs Hload) as (w' & Hrun & Hshown).
  destruct (decide (10 < length (aggregate recs))%nat) as [_|?]; [|lia].
  assert (charts ctl (aggregate recs)
          = Ok ({| long_rows := long_rows (set_Resource
                                  {| long_rows := melt (top20 t);
                                     town_categories := None |});
                   town_categories := Some (order (top20 t)) |},
                heatmap_matrix (topN (n_towns ctl) t))) as Hcharts.
  { unfold charts. rewrite Hfilter. cbn [result_bind].
    by rewrite bar_frame_ok. }
  rewrite Hcharts in Hrun, Hshown. eexists w', _. by split_and!.
Qed.

Lemma charts_not_Stopped (ctl : controls) (a : list AggRow) :
  charts ctl a ≠ Stopped.
Proof.
  unfold charts, filter_towns, filter_by_name, bar_frame, set_Town_categorical,
    Categorical, result_bind.
  repeat case_match; done.
Qed.

(** X15. A run ends in one of three ways: stopped, with the
    missing-columns message alone on the page and no frame created; with an
    exception and nothing drawn; or completed with exactly the bar chart
    followed by the heatmap.  A chart is never drawn alone or next to the
    message. *)
Theorem X15_run_outcomes (df : DataFrame) (ctl : controls) :
  let r := run (main df ctl) empty_world in
  (r.1 = Stopped ∧ shown r.2 = [ShowError missing_message] ∧ heap r.2 = ∅) ∨
  (∃ e, r.1 = Raised e ∧ shown r.2 = []) ∨
  (r.1 = Ok () ∧ ∃ f m, shown r.2 = [PlotBar f; PlotHeatmap m]).
Proof.
  intros r. unfold r.
  destruct (load df) as [recs| |e] eqn:Hload.
  - destruct (main_run df ctl recs Hload) as (w' & -> & Hshown). simpl.
    destruct (decide (10 < length (aggregate recs))%nat); [|right; left; eauto].
    destruct (charts ctl (aggregate recs)) as [[f m]| |e] eqn:Hcharts; simpl.
    + right. right. eauto.
    + by destruct (charts_not_Stopped ctl (aggregate recs)).
    + right. left. eauto.
  - left. unfold main. rewrite Hload. done.
  - right. left. unfold main. rewrite Hload. simpl. eauto.
Qed.

(** X16. Whitespace around the filter text is ignored: the text and its
    stripped form filter every table alike. *)
Theorem X16_filter_ignores_outer_whitespace (name_filter : string) (t : list AggRow) :
  filter_towns (strip name_filter) t = filter_towns name_filter t.
Proof. unfold filter_towns. by rewrite strip_idempotent. Qed.

(** X18. On a file with at most ten towns the slider of line 71 rejects
    its bounds ([max_value] is not above [min_value=10]): the run ends with
    that exception before any table is filtered, and nothing is drawn,
    whatever the controls. *)
Theorem X18_few_towns_stop_at_the_slider
    (df : DataFrame) (recs : list Row) (ctl : controls) :
  load df = Ok recs → (length (aggregate recs) ≤ 10)%nat →
  ∃ w', run (main df ctl) empty_world = (Raised StreamlitAPIException, w') ∧
        shown w' = [].
Proof.
  intros Hload Hlen.
  destruct (main_run df ctl recs Hload) as (w' & Hrun & Hshown).
  destruct (decide (10 < length (aggregate recs))%nat); [lia|]. by exists w'.
Qed.

End RunProperties.

Lemma X13_missing_town_stops_the_run_witness :
  ∃ w', run (main (H := stable_engine) twelve_towns_frame sample_controls) empty_world
          = (Raised ValueError, w') ∧ shown w' = [].
Proof.
  assert (∃ recs, load twelve_towns_frame = Ok recs ∧
                  {| Town := CNaN; hospitals := 5; clinics := 0; pharmacies := 0;
                     medical_centers := 0 |} ∈ recs ∧
                  length (aggregate recs) = 13%nat) as (recs & Hload & Hin & Hlen).
  { eexists. split; [vm_compute; reflexivity|].
    split; [apply (bool_decide_unpack _); vm_compute; exact I|vm_compute; reflexivity]. }
  refine (proj2 (X13_missing_town_stops_the_run (H := stable_engine))
            twelve_towns_frame recs sample_controls Hload _ _ _).
  - reflexivity.
  - eexists. split; [exact Hin|reflexivity].
  - rewrite Hlen. lia.
Defined.

Lemma X14_filtered_run_completes_witness :
  ∃ w' f, run (main (H := stable_engine) twelve_towns_frame
                 {| n_towns := 10; name_filter := " b " |}) empty_world = (Ok (), w') ∧
          shown w' = [PlotBar f;
                      PlotHeatmap {| m_index := [CStr "B"];
                                     m_columns := ["Hospitals"; "Clinics"; "Pharmacies";
                                                   "Medical Centers"];
                                     m_values := [[1; 1; 0; 0]] |}].
Proof.
  assert (∃ recs t,
            load twelve_towns_frame = Ok recs ∧ length (aggregate recs) = 13%nat ∧
            filter_towns (H := stable_engine) " b " (aggregate recs) = Ok t ∧
            heatmap_matrix (topN (H := stable_engine) 10 t)
            = {| m_index := [CStr "B"];
                 m_columns := ["Hospitals"; "Clinics"; "Pharmacies"; "Medical Centers"];
                 m_values := [[1; 1; 0; 0]] |}) as (recs & t & Hload & Hlen & Ht & Hm).
  { eexists _, _. split; [vm_compute; reflexivity|].
    split; [vm_compute; reflexivity|]. split; vm_compute; reflexivity. }
  destruct (X14_filtered_run_completes (H := stable_engine) twelve_towns_frame recs
              {| n_towns := 10; name_filter := " b " |} t)
    as (w' & f & Hrun & Hshown & _).
  - exact Hload.
  - rewrite Hlen. lia.
  - apply (bool_decide_unpack _). vm_compute. exact I.
  - exact Ht.
  - exists w', f. split; [exact Hrun|]. rewrite Hshown. simpl. by rewrite Hm.
Defined.

Lemma X18_few_towns_stop_at_the_slider_witness :
  ∃ w', run (main (H := stable_engine) sample_frame sample_controls) empty_world
          = (Raised StreamlitAPIException, w') ∧ shown w' = [].
Proof.
  apply (X18_few_towns_stop_at_the_slider (H := stable_engine)
           sample_frame sample_records).
  - vm_compute. reflexivity.
  - vm_compute. lia.
Defined.

(** X17. When no selected town is missing, the categorical
    ordering attached to the long frame lists the selected towns by
    non-increasing TOTAL: it is a rearrangement of the selected rows that
    descends in total, and the selected rows descend in total themselves.
    When the selected totals are pairwise distinct it is their one
    descending order, the order of the selected rows.  Nothing is said of
    the order among towns of equal total. *)
Theorem X17_categories_by_descending_total `{!Engine}
    (recs : list Row) (name_filter : string) (t : list AggRow) :
  filter_towns name_filter (aggregate recs) = Ok t →
  CNaN ∉ Town <$> top20 t →
  ∃ rows,
    bar_frame t
    = Ok {| long_rows := long_rows (set_Resource {| long_rows := melt (top20 t);
                                                     town_categories := None |});
            town_categories := Some (Town <$> rows) |} ∧
    rows ≡ₚ top20 t ∧
    Sorted (descending row_total) rows ∧
    Sorted (descending row_total) (top20 t) ∧
    (NoDup (row_total <$> top20 t) → rows = top20 t).
Proof.
  intros Hfilter Hna.
  assert (t `sublist_of` aggregate recs) as Hsub
    by (by eapply filter_towns_sublist).
  assert (NoDup (Town ∘ sums <$> t)) as Hnd.
  { eapply sublist_NoDup; [apply aggregate_towns_NoDup|by apply fmap_sublist]. }
  assert (Forall (λ r, TOTAL r = row_total (sums r)) t) as Htot.
  { apply Forall_forall. intros r Hr.
    pose proof (aggregate_TOTAL recs) as Hall.
    rewrite Forall_forall in Hall. apply Hall. by eapply elem_of_sublist. }
  destruct (order_rows (top20 t)) as (rows & Horder & Hp & Hs).
  exists rows. split_and!; [|done..| |].
  - by rewrite bar_frame_ok, Horder.
  - by apply top20_Sorted.
  - intros Hdistinct. apply (descending_unique row_total); [|done..|].
    + by rewrite Hp.
    + by apply top20_Sorted.
Qed.

(** On [three_towns] the categories are B, C, A: neither the alphabetical
    order of the aggregate nor the order of the file. *)
Lemma X17_categories_by_descending_total_witness :
  ∃ f, bar_frame (H := stable_engine) (aggregate three_towns) = Ok f ∧
       town_categories f = Some [CStr "B"; CStr "C"; CStr "A"] ∧
       Town ∘ sums <$> aggregate three_towns = [CStr "A"; CStr "B"; CStr "C"] ∧
       Town <$> three_towns = [CStr "C"; CStr "A"; CStr "B"].
Proof.
  destruct (X17_categories_by_descending_total (H := stable_engine)
              three_towns "" (aggregate three_towns))
    as (rows & Hf & _ & _ & _ & Hrows).
  - reflexivity.
  - apply (bool_decide_unpack _). vm_compute. exact I.
  - eexists. split; [exact Hf|]. rewrite Hrows.
    + split_and!; vm_compute; reflexivity.
    + apply (bool_decide_unpack _). vm_compute. exact I.
Defined.
